(** * The afterstate TD learner of agent.h

    A shallow embedding of [weight_agent] (agent.h, lines 73-209): the
    feature extractor [get_tuple], the value network [get_V], the learning
    steps [update_weight] and [last_update], the one-ply search of
    [take_action], and the weight persistence [load_weights] and
    [save_weights].

    The headers board.h, action.h and weight.h are not part of the sources
    at hand.  The board is therefore an interface ([Board]) over which the
    engine is parametric, and the element layout of a weight table on a
    stream is taken from the specification. *)

From Stdlib Require Import ZArith List Lia Bool.
From Stdlib Require Import Floats.SpecFloat.
From Stdlib Require Import Ascii DecimalString.
From coqutil Require Import Byte Word.LittleEndianList.
From stdpp Require Import base option list gmap strings.

Local Open Scope Z_scope.

(** ** C++ [int]

    A 32-bit two's-complement integer is a [Z] in [-2^31, 2^31).  Signed
    overflow is undefined in C++; the operations below wrap, which is what
    the usual targets do, and the statements about [get_tuple] are made
    where no operation wraps. *)
Module Int32.

Definition wrap (z : Z) : Z := (z + 2147483648) mod 4294967296 - 2147483648.

Definition add (x y : Z) : Z := wrap (x + y).

Definition sub (x y : Z) : Z := wrap (x - y).

Definition mul (x y : Z) : Z := wrap (x * y).

End Int32.

(** ** C++ [float]

    A [float] is its IEEE 754 binary32 bit pattern, a [Z] in [0, 2^32):
    bit 31 is the sign, bits 30..23 the biased exponent, bits 22..0 the
    fraction.  Arithmetic decodes to [spec_float], applies the operation of
    the Standard Library at precision 24 and maximal exponent 128 (round to
    nearest, ties to even) and encodes the result.  A NaN result is encoded
    as the quiet NaN 0x7FC00000. *)
Module Float32.

Definition float : Type := Z.

Definition prec : Z := 24.

Definition emax : Z := 128.

Definition decode (b : float) : spec_float :=
  let s := Z.testbit b 31 in
  let ex := Z.land (Z.shiftr b 23) 255 in
  let frac := Z.land b 8388607 in
  if ex =? 0 then
    match frac with
    | Zpos m => S754_finite s m (-149)
    | _ => S754_zero s
    end
  else if ex =? 255 then
    (if frac =? 0 then S754_infinity s else S754_nan)
  else
    match Z.lor frac 8388608 with
    | Zpos m => S754_finite s m (ex - 150)
    | _ => S754_nan
    end.

Definition sign_bit (s : bool) : Z := if s then 2147483648 else 0.

Definition encode (x : spec_float) : float :=
  match x with
  | S754_zero s => sign_bit s
  | S754_infinity s => Z.lor (sign_bit s) 2139095040
  | S754_nan => 2143289344
  | S754_finite s m e =>
      if Zpos m <? 8388608 then Z.lor (sign_bit s) (Zpos m)
      else Z.lor (sign_bit s)
             (Z.lor (Z.shiftl (e + 150) 23) (Z.land (Zpos m) 8388607))
  end.

(** [x + y], [x - y], [x * y] on floats. *)
Definition add (x y : float) : float :=
  encode (SFadd prec emax (decode x) (decode y)).

Definition sub (x y : float) : float :=
  encode (SFsub prec emax (decode x) (decode y)).

Definition mul (x y : float) : float :=
  encode (SFmul prec emax (decode x) (decode y)).

(** [x > y]: false as soon as one side is a NaN. *)
Definition gt (x y : float) : bool :=
  match SFcompare (decode x) (decode y) with
  | Some Gt => true
  | _ => false
  end.

(** [x >= y]. *)
Definition ge (x y : float) : bool :=
  match SFcompare (decode x) (decode y) with
  | Some Gt | Some Eq => true
  | _ => false
  end.

(** The conversion of an [int] to [float]. *)
Definition of_int (z : Z) : float :=
  encode (binary_normalize prec emax z 0 false).

(** The literals of the source. *)
Definition zero : float := 0.

Definition minus_one : float := 3212836864.

Definition default_alpha : float := 1011666125.

(** A float stored in memory occupies 32 bits. *)
Definition is_bits (x : float) : Prop := 0 <= x < 4294967296.

End Float32.

Abbreviation float := Float32.float.

Arguments Int32.wrap : simpl never.
Arguments Int32.add : simpl never.
Arguments Int32.sub : simpl never.
Arguments Int32.mul : simpl never.
Arguments Float32.decode : simpl never.
Arguments Float32.encode : simpl never.
Arguments Float32.add : simpl never.
Arguments Float32.sub : simpl never.
Arguments Float32.mul : simpl never.
Arguments Float32.gt : simpl never.
Arguments Float32.ge : simpl never.
Arguments Float32.of_int : simpl never.

(** ** Grids (board.h)

    [board::grid] is a [std::array] of four rows, a [board::row] a
    [std::array] of four cells.  A cell holds a tile index. *)
Record array4 (A : Type) : Type := Array4 { a0 : A; a1 : A; a2 : A; a3 : A }.

Arguments Array4 {A} _ _ _ _.
Arguments a0 {A} _.
Arguments a1 {A} _.
Arguments a2 {A} _.
Arguments a3 {A} _.

Definition cell : Type := Z.

Definition row : Type := array4 cell.

Definition grid : Type := array4 row.

(** [v[i]] for [i] in 0..3, the only indices the source uses. *)
Definition at4 {A : Type} (v : array4 A) (i : Z) : A :=
  if i =? 0 then a0 v else if i =? 1 then a1 v else if i =? 2 then a2 v else a3 v.

Definition cells (g : grid) : list cell :=
  r ← [a0 g; a1 g; a2 g; a3 g]; [a0 r; a1 r; a2 r; a3 r].

(** The invariant of a grid: every cell is a 4-bit tile index. *)
Definition cell_ok (c : cell) : Prop := 0 <= c <= 15.

Definition grid_ok (g : grid) : Prop := Forall cell_ok (cells g).

(** ** Feature extractor: [weight_agent::get_tuple] (lines 147-170) *)

(** The expression [16*16*16*a + 16*16*b + 16*c + d] on [int]s. *)
Definition pack4 (a b c d : Z) : Z :=
  Int32.add
    (Int32.add
       (Int32.add (Int32.mul (Int32.mul (Int32.mul 16 16) 16) a)
                  (Int32.mul (Int32.mul 16 16) b))
       (Int32.mul 16 c))
    d.

(** The local vectors of [get_tuple]. *)
Record tuple_locals : Type := TupleLocals {
  tuples_v : list Z;
  col1 : list Z;
  col2 : list Z;
  col3 : list Z;
  col4 : list Z
}.

(** [v.emplace_back(x)]. *)
Definition emplace_back {A : Type} (v : list A) (x : A) : list A := v ++ [x].

(** [v[k]] on a local vector that is known to hold the element. *)
Definition elt (v : list Z) (k : nat) : Z := nth k v 0.

(** The body of the loop over the rows, lines 154-163. *)
Definition get_tuple_row (state : grid) (l : tuple_locals) (i : Z) : tuple_locals :=
  let row := at4 state i in
  let a := Int32.wrap (at4 row 0) in
  let b := Int32.wrap (at4 row 1) in
  let c := Int32.wrap (at4 row 2) in
  let d := Int32.wrap (at4 row 3) in
  {| tuples_v := emplace_back (tuples_v l) (pack4 a b c d);
     col1 := emplace_back (col1 l) a;
     col2 := emplace_back (col2 l) b;
     col3 := emplace_back (col3 l) c;
     col4 := emplace_back (col4 l) d |}.

Definition get_tuple (state : grid) : list Z :=
  let l := foldl (get_tuple_row state) (TupleLocals [] [] [] [] []) (seqZ 0 4) in
  let t := tuples_v l in
  let t := emplace_back t (pack4 (elt (col1 l) 0) (elt (col1 l) 1) (elt (col1 l) 2) (elt (col1 l) 3)) in
  let t := emplace_back t (pack4 (elt (col2 l) 0) (elt (col2 l) 1) (elt (col2 l) 2) (elt (col2 l) 3)) in
  let t := emplace_back t (pack4 (elt (col3 l) 0) (elt (col3 l) 1) (elt (col3 l) 2) (elt (col3 l) 3)) in
  let t := emplace_back t (pack4 (elt (col4 l) 0) (elt (col4 l) 1) (elt (col4 l) 2) (elt (col4 l) 3)) in
  t.

(** The index the specification gives for four cells, most significant
    first. *)
Definition index_of (d0 d1 d2 d3 : Z) : Z := 4096 * d0 + 256 * d1 + 16 * d2 + d3.

Definition row_index (r : row) : Z := index_of (a0 r) (a1 r) (a2 r) (a3 r).

(** The same four cells as the source packs them: converted to [int] and
    combined by [int] arithmetic. *)
Definition row_pack (r : row) : Z :=
  pack4 (Int32.wrap (a0 r)) (Int32.wrap (a1 r)) (Int32.wrap (a2 r)) (Int32.wrap (a3 r)).

Definition column (g : grid) (pick : row -> cell) : row :=
  Array4 (pick (a0 g)) (pick (a1 g)) (pick (a2 g)) (pick (a3 g)).

(** ** Weight tables (weight.h) and the network

    A [weight] is a [std::vector<float>], the network a
    [std::vector<weight>].  [operator[]] is unchecked: an access out of
    range is undefined behaviour, modelled by [None]. *)
Abbreviation weight := (list float).

Definition vec_at {A : Type} (v : list A) (i : Z) : option A :=
  if decide (0 <= i) then v !! Z.to_nat i else None.

(** Reading [net[i][j]]. *)
Definition net_at (net : list weight) (i j : Z) : option float :=
  w ← vec_at net i; vec_at w j.

(** The assignment [net[i][j] = x]. *)
Definition net_set (net : list weight) (i j : Z) (x : float) : option (list weight) :=
  w ← vec_at net i;
  _ ← vec_at w j;
  Some (<[Z.to_nat i := <[Z.to_nat j := x]> w]> net).

(** A [for] loop over the indices [idx] whose body may be undefined. *)
Fixpoint for_each {S : Type} (body : Z -> S -> option S) (idx : list Z) (s : S) : option S :=
  match idx with
  | [] => Some s
  | i :: rest => s' ← body i s; for_each body rest s'
  end.

(** The fields of [weight_agent] (lines 203-208).  [opcode] is set to
    {0, 1, 2, 3} by the constructor and never assigned again. *)
Record weight_agent : Type := WeightAgent {
  net : list weight;
  alpha : float;
  s_V : float;
  train : bool;
  s_tuples : list Z
}.

Definition opcode : list Z := [0; 1; 2; 3].

Definition with_net (a : weight_agent) (n : list weight) : weight_agent :=
  {| net := n; alpha := alpha a; s_V := s_V a; train := train a; s_tuples := s_tuples a |}.

(** [init_weights] (lines 174-183): eight tables of 65536 zeros. *)
Definition table_size : Z := 65536.

Definition init_weights (n : list weight) : list weight :=
  foldl (fun n _ => emplace_back n (replicate (Z.to_nat table_size) Float32.zero)) n (seqZ 0 8).

(** [get_V] (lines 140-146). *)
Definition get_V (n : list weight) (tuples : list Z) : option float :=
  for_each
    (fun i result => t ← vec_at tuples i; w ← net_at n i t; Some (Float32.add result w))
    (seqZ 0 8) (Float32.of_int 0).

(** One round of the loops of [update_weight] and [last_update]:
    [net[i][s_tuples[i]] = net[i][s_tuples[i]] + alpha * (target - s_V)]. *)
Definition adjust_entry (target : float) (i : Z) (a : weight_agent) : option weight_agent :=
  t ← vec_at (s_tuples a) i;
  old ← net_at (net a) i t;
  n ← net_set (net a) i t
        (Float32.add old (Float32.mul (alpha a) (Float32.sub target (s_V a))));
  Some (with_net a n).

(** The scalar both loops add: [alpha * (target - s_V)]. *)
Definition step_size (a : weight_agent) (target : float) : float :=
  Float32.mul (alpha a) (Float32.sub target (s_V a)).

(** The entries the loops write: [net[i][s_tuples[i]]] for [i] in 0..7. *)
Definition touched (a : weight_agent) (i j : Z) : Prop :=
  0 <= i < 8 /\ vec_at (s_tuples a) i = Some j.

(** [update_weight] (lines 128-133). *)
Definition update_weight (a : weight_agent) (st_1_r_V : float) : option weight_agent :=
  for_each (adjust_entry st_1_r_V) (seqZ 0 8) a.

(** [last_update] (lines 134-139); the target is the [int] 0. *)
Definition last_update (a : weight_agent) : option weight_agent :=
  for_each (adjust_entry (Float32.of_int 0)) (seqZ 0 8) a.

(** ** The board and the action (board.h, action.h)

    What [take_action] asks of a board: [slide] applies a move to the board
    it is called on and returns the reward or -1 for an illegal move,
    [value] is the total value, [state_plun] the grid after a slide.  The
    rewards are [int]s ([board::reward]). *)
Class Board (B : Type) : Type := {
  slide : B -> Z -> Z * B;
  value : B -> Z;
  state_plun : B -> Z -> grid
}.

(** [action::slide(op)] and the default-constructed [action()]. *)
Inductive action : Type :=
| action_slide (op : Z)
| action_null.

(** ** The one-ply search and the learning step: [take_action]
    (lines 88-127) *)
Section Engine.

Context {B : Type} `{Board B}.

(** The locals [op_best], [best_state] and [r_V_best]; [best_state] is
    declared without an initial value. *)
Record search : Type := Search {
  op_best : Z;
  best_state : option grid;
  r_V_best : float
}.

Definition search_start : search :=
  {| op_best := -1; best_state := None; r_V_best := Float32.minus_one |}.

(** The body of the loop over [opcode], lines 95-112. *)
Definition try_op (a : weight_agent) (before : B) (op : Z) (s : search) : option search :=
  let tmp := before in
  let '(reward, tmp) := slide tmp op in
  if reward =? -1 then Some s
  else
    let Fplun := value tmp in
    let F := value before in
    let Reward := Int32.sub Fplun F in
    let state := state_plun before op in
    let tuples := get_tuple state in
    V ← get_V (net a) tuples;
    let r_V := Float32.add (Float32.of_int Reward) V in
    if Float32.gt r_V (r_V_best s)
    then Some {| op_best := op; best_state := Some state; r_V_best := r_V |}
    else Some s.

Definition run_search (a : weight_agent) (before : B) : option search :=
  for_each (try_op a before) opcode search_start.

Definition take_action (a : weight_agent) (before : B) : option (action * weight_agent) :=
  s ← run_search a before;
  a1 ← (if train a then update_weight a (r_V_best s) else Some a);
  let best_state := state_plun before (op_best s) in
  let tuples := get_tuple best_state in
  V ← get_V (net a1) tuples;
  let a2 := {| net := net a1; alpha := alpha a1; s_V := V; train := true; s_tuples := tuples |} in
  if decide (op_best s ≠ -1)
  then Some (action_slide (op_best s), a2)
  else Some (action_null, a2).

(** *** Vocabulary of the statements *)

(** A direction is legal when its slide does not return the sentinel. *)
Definition legal (before : B) (op : Z) : bool :=
  negb ((slide before op).1 =? -1).

(** The reward of a direction: total value after the slide minus total
    value before. *)
Definition reward_of (before : B) (op : Z) : Z :=
  Int32.sub (value (slide before op).2) (value before).

(** The grid after the slide and its feature tuples. *)
Definition afterstate_tuples (before : B) (op : Z) : list Z :=
  get_tuple (state_plun before op).

(** [candidate = reward + estimate] of a direction on the network [n]. *)
Definition candidate (n : list weight) (before : B) (op : Z) : option float :=
  V ← get_V n (afterstate_tuples before op);
  Some (Float32.add (Float32.of_int (reward_of before op)) V).

(** No legal direction among [ops] has a candidate [c] with [cmp c b]. *)
Definition beaten_by (n : list weight) (before : B) (ops : list Z) (b : float)
           (cmp : float -> float -> bool) : Prop :=
  forall op c, op ∈ ops -> legal before op = true ->
               candidate n before op = Some c -> cmp c b = false.

(** What the locals of the search hold once the directions [done] have
    been tried: no legal candidate exceeds [r_V_best], and either nothing
    was selected and [r_V_best] is still -1.0, or [op_best] is a legal
    direction whose candidate is [r_V_best], exceeds -1.0 and is not
    reached by any direction tried before it. *)
Definition search_inv (n : list weight) (before : B) (done : list Z) (s : search) : Prop :=
  beaten_by n before done (r_V_best s) Float32.gt /\
  ((op_best s = -1 /\ r_V_best s = Float32.minus_one) \/
   (legal before (op_best s) = true /\
    candidate n before (op_best s) = Some (r_V_best s) /\
    Float32.gt (r_V_best s) Float32.minus_one = true /\
    exists pre post, done = pre ++ op_best s :: post /\
                     beaten_by n before pre (r_V_best s) Float32.ge)).

End Engine.

(** ** Persistence: [load_weights] and [save_weights] (lines 184-200) *)

(** How a call ends: it returns, the process is ended by [std::exit], or
    the source does not determine the result (a variable read before it is
    assigned, a stream that ends early). *)
Inductive outcome (A : Type) : Type :=
| Returned (x : A)
| Exited (status : Z)
| Unspecified.

Arguments Returned {A} _.
Arguments Exited {A} _.
Arguments Unspecified {A}.

(** The files that can be opened for reading, with their contents, and the
    paths that can be opened for writing. *)
Record filesystem : Type := FileSystem {
  fs_files : gmap string (list byte);
  fs_writable : string -> bool
}.

(** [std::ifstream in(path, in | binary)] and [in.is_open()]. *)
Definition open_in (fs : filesystem) (path : string) : option (list byte) :=
  fs_files fs !! path.

(** [std::ofstream out(path, out | binary | trunc)] and [out.is_open()]. *)
Definition open_out (fs : filesystem) (path : string) : bool :=
  fs_writable fs path.

(** [out.close()] after [data] has been written to the truncated file. *)
Definition close_out (fs : filesystem) (path : string) (data : list byte) : filesystem :=
  {| fs_files := <[path := data]> (fs_files fs); fs_writable := fs_writable fs |}.

(** The four bytes of a 32-bit object in memory, least significant first. *)
Definition write_u32 (z : Z) : list byte := le_split 4 z.

Definition read_u32 (data : list byte) : option (Z * list byte) :=
  if decide (4 <= length data)%nat
  then Some (le_combine (take 4 data), drop 4 data)
  else None.

(** Modelled from the spec: the stream operators of [weight] (weight.h is
    missing).  A table is written as its raw element sequence in index
    order, with no padding and no length prefix; the element count of a
    table that is read is 65536. *)
Definition write_weight (w : weight) : list byte := w ≫= write_u32.

Fixpoint read_floats (n : nat) (data : list byte) : option (list float * list byte) :=
  match n with
  | O => Some ([], data)
  | S n =>
      '(x, rest) ← read_u32 data;
      '(xs, rest) ← read_floats n rest;
      Some (x :: xs, rest)
  end.

Definition read_weight (data : list byte) : option (weight * list byte) :=
  read_floats (Z.to_nat table_size) data.

(** [for (weight& w : net) in >> w]. *)
Fixpoint read_tables (n : list weight) (data : list byte) : option (list weight * list byte) :=
  match n with
  | [] => Some ([], data)
  | _ :: ws =>
      '(w, rest) ← read_weight data;
      '(ws, rest) ← read_tables ws rest;
      Some (w :: ws, rest)
  end.

Definition load_weights (fs : filesystem) (path : string) (a : weight_agent) : outcome weight_agent :=
  match open_in fs path with
  | None => Exited (-1)
  | Some data =>
      match read_u32 data with
      | None => Unspecified
      | Some (size, rest) =>
          match read_tables (resize (Z.to_nat size) [] (net a)) rest with
          | Some (n, _) => Returned (with_net a n)
          | None => Unspecified
          end
      end
  end.

Definition save_weights (fs : filesystem) (path : string) (a : weight_agent) : outcome filesystem :=
  if open_out fs path then
    let size := Z.of_nat (length (net a)) mod 4294967296 in
    let out := write_u32 size in
    let out := foldl (fun out w => out ++ write_weight w) out (net a) in
    Returned (close_out fs path out)
  else Exited (-1).

(** ** Well-formed states *)

(** Eight tables of 65536 entries. *)
Definition net_ok (n : list weight) : Prop :=
  Z.of_nat (length n) = 8 /\ Forall (fun w : weight => Z.of_nat (length w) = table_size) n.

(** Every stored weight is a 32-bit pattern. *)
Definition net_bits (n : list weight) : Prop :=
  Forall (fun w : weight => Forall Float32.is_bits w) n.

(** Eight indices, each within a table. *)
Definition tuples_ok (t : list Z) : Prop :=
  Z.of_nat (length t) = 8 /\ Forall (fun x => 0 <= x <= 65535) t.

(** [IDLE] is [train = 0]; in [DECIDED] the carried tuples are those of a
    grid. *)
Definition agent_ok (a : weight_agent) : Prop :=
  net_ok (net a) /\ (train a = true -> tuples_ok (s_tuples a)).

(** The grids the board hands to [take_action] respect the invariant. *)
Definition board_ok {B : Type} `{Board B} (before : B) : Prop :=
  Forall (fun op => grid_ok (state_plun before op)) (-1 :: opcode).

#[export] Instance action_eq_dec : EqDecision action.
Proof. solve_decision. Defined.

#[export] Instance weight_agent_eq_dec : EqDecision weight_agent.
Proof. solve_decision. Defined.

#[export] Instance is_bits_dec (x : float) : Decision (Float32.is_bits x).
Proof. unfold Float32.is_bits. apply _. Defined.

#[export] Instance cell_ok_dec (c : cell) : Decision (cell_ok c).
Proof. unfold cell_ok. apply _. Defined.

#[export] Instance grid_ok_dec (g : grid) : Decision (grid_ok g).
Proof. unfold grid_ok. apply _. Defined.

#[export] Instance net_ok_dec (n : list weight) : Decision (net_ok n).
Proof. unfold net_ok. apply _. Defined.

#[export] Instance net_bits_dec (n : list weight) : Decision (net_bits n).
Proof. unfold net_bits. apply _. Defined.

#[export] Instance tuples_ok_dec (t : list Z) : Decision (tuples_ok t).
Proof. unfold tuples_ok. apply _. Defined.

#[export] Instance touched_dec (a : weight_agent) (i j : Z) : Decision (touched a i j).
Proof. unfold touched. apply _. Defined.

#[export] Instance agent_ok_dec (a : weight_agent) : Decision (agent_ok a).
Proof. unfold agent_ok. apply _. Defined.

#[export] Instance board_ok_dec {B : Type} `{Board B} (before : B) : Decision (board_ok before).
Proof. unfold board_ok. apply _. Defined.

(** ** A scripted board

    An instance of the board interface that answers from a script: entry
    [op] of [sc_moves] is [None] when sliding in direction [op] is illegal
    and otherwise gives the reward, the total value after the slide and
    the grid after the slide. *)
Record scripted : Type := Scripted {
  sc_grid : grid;
  sc_value : Z;
  sc_moves : list (option (Z * Z * grid))
}.

Definition scripted_slide (b : scripted) (op : Z) : Z * scripted :=
  match vec_at (sc_moves b) op with
  | Some (Some (r, v, g)) => (r, {| sc_grid := g; sc_value := v; sc_moves := [] |})
  | _ => (-1, b)
  end.

Definition scripted_state_plun (b : scripted) (op : Z) : grid :=
  match vec_at (sc_moves b) op with
  | Some (Some (_, _, g)) => g
  | _ => sc_grid b
  end.

#[export] Instance scripted_board : Board scripted :=
  {| slide := scripted_slide; value := sc_value; state_plun := scripted_state_plun |}.

(** *** Scenarios

    Directions are numbered up, right, down, left.  [board_one] holds a
    single tile 1 in the top left corner: it can slide right or down.
    [board_merge] holds a 2 and a 1 side by side in the top row: sliding
    left merges them into a 3 and raises the total value by 3.
    [board_full] is covered with 1s and has no legal slide. *)
Definition empty_row : row := Array4 0 0 0 0.

Definition grid_of_rows (r0 r1 r2 r3 : row) : grid := Array4 r0 r1 r2 r3.

Definition grid_one : grid := grid_of_rows (Array4 1 0 0 0) empty_row empty_row empty_row.

Definition grid_one_right : grid := grid_of_rows (Array4 0 1 0 0) empty_row empty_row empty_row.

Definition grid_one_down : grid := grid_of_rows empty_row (Array4 1 0 0 0) empty_row empty_row.

Definition board_one : scripted :=
  {| sc_grid := grid_one; sc_value := 0;
     sc_moves := [None; Some (0, 0, grid_one_right); Some (0, 0, grid_one_down); None] |}.

Definition grid_merge : grid := grid_of_rows (Array4 2 1 0 0) empty_row empty_row empty_row.

Definition grid_merge_right : grid := grid_of_rows (Array4 0 2 1 0) empty_row empty_row empty_row.

Definition grid_merge_down : grid := grid_of_rows empty_row (Array4 2 1 0 0) empty_row empty_row.

Definition grid_merge_left : grid := grid_of_rows (Array4 3 0 0 0) empty_row empty_row empty_row.

Definition board_merge : scripted :=
  {| sc_grid := grid_merge; sc_value := 0;
     sc_moves := [None; Some (0, 0, grid_merge_right); Some (0, 0, grid_merge_down);
                  Some (3, 3, grid_merge_left)] |}.

Definition grid_full : grid :=
  grid_of_rows (Array4 1 1 1 1) (Array4 1 1 1 1) (Array4 1 1 1 1) (Array4 1 1 1 1).

Definition board_full : scripted :=
  {| sc_grid := grid_full; sc_value := 0; sc_moves := [None; None; None; None] |}.

(** The agent after [init_weights], before its first turn; [s_V] has no
    initial value in the source and is given one here. *)
Definition fresh_agent (rate : float) : weight_agent :=
  {| net := init_weights []; alpha := rate; s_V := Float32.zero; train := false; s_tuples := [] |}.

(** Consecutive calls of [take_action] on the boards of a game loop. *)
Fixpoint play {B : Type} `{Board B} (a : weight_agent) (boards : list B) : option (list action * weight_agent) :=
  match boards with
  | [] => Some ([], a)
  | b :: rest =>
      '(act, a) ← take_action a b;
      '(acts, a) ← play a rest;
      Some (act :: acts, a)
  end.

(** The float 1.0, a learning rate that the option [alpha=1] selects. *)
Definition one : float := 1065353216.

(** An agent that has played [board_one] and then met [board_full] with
    learning rate 1. *)
Definition agent_after_loss : option weight_agent :=
  snd <$> play (fresh_agent one) [board_one; board_full].

(** A network as [load_weights] may read it from a file: zero except for
    -2.0 at the row index of [0 1 0 0] in table 0 and -3.0 at the row index
    of [1 0 0 0] in table 1. *)
Definition minus_two : float := 3221225472.

Definition minus_three : float := 3225419776.

Definition zero_table : weight := replicate (Z.to_nat table_size) Float32.zero.

Definition low_net : list weight :=
  [<[256%nat := minus_two]> zero_table; <[4096%nat := minus_three]> zero_table;
   zero_table; zero_table; zero_table; zero_table; zero_table; zero_table].

Definition low_agent : weight_agent :=
  {| net := low_net; alpha := Float32.default_alpha; s_V := Float32.zero;
     train := false; s_tuples := [] |}.

(** The state [DECIDED] with the default learning rate: the agent has
    played [board_one] to the right. *)
Definition decided_agent : weight_agent :=
  {| net := init_weights []; alpha := Float32.default_alpha; s_V := Float32.zero;
     train := true; s_tuples := [256; 0; 0; 0; 0; 4096; 0; 0] |}.

(** [decided_agent] after its turn on [board_merge]: 0.0375 has been added
    to the eight carried entries, and the state carried on is that of the
    merge to the left. *)
Definition step_0375 : float := 1025087898.

Definition merged_agent : weight_agent :=
  {| net := [<[256%nat := step_0375]> zero_table; <[0%nat := step_0375]> zero_table;
             <[0%nat := step_0375]> zero_table; <[0%nat := step_0375]> zero_table;
             <[0%nat := step_0375]> zero_table; <[4096%nat := step_0375]> zero_table;
             <[0%nat := step_0375]> zero_table; <[0%nat := step_0375]> zero_table];
     alpha := Float32.default_alpha; s_V := 1044381696; train := true;
     s_tuples := [12288; 0; 0; 0; 12288; 0; 0; 0] |}.

(** A state [DECIDED] with learning rate 0.1 and carried estimate 5.0. *)
Definition flush_agent : weight_agent :=
  {| net := init_weights []; alpha := 1036831949; s_V := 1084227584;
     train := true; s_tuples := [256; 0; 0; 0; 0; 4096; 0; 0] |}.

(** A file system without files in which every path can be written. *)
Definition empty_disk : filesystem :=
  {| fs_files := ∅; fs_writable := fun _ => true |}.

(** The agent in its second turn of the default configuration: it has
    played [board_one]. *)
Definition agent_second_turn : option weight_agent :=
  snd <$> play (fresh_agent Float32.default_alpha) [board_one].

(** ** Proof automation *)

(** Case analysis on the comparisons of exponents and mantissas that
    [SFcompare] performs. *)
Ltac compare_cases :=
  repeat match goal with
  | H : context [Pos.compare_cont Eq ?p ?q] |- _ =>
      change (Pos.compare_cont Eq p q) with (Pos.compare p q) in H
  | |- context [Pos.compare_cont Eq ?p ?q] =>
      change (Pos.compare_cont Eq p q) with (Pos.compare p q)
  end;
  repeat match goal with
  | H : context [Z.compare ?x ?y] |- _ => destruct (Z.compare_spec x y)
  | |- context [Z.compare ?x ?y] => destruct (Z.compare_spec x y)
  | H : context [Pos.compare ?p ?q] |- _ => destruct (Pos.compare_spec p q)
  | |- context [Pos.compare ?p ?q] => destruct (Pos.compare_spec p q)
  end;
  simpl in *; try congruence; try lia.

(** Decidable side conditions on concrete states are settled by running
    their decision procedure. *)
Ltac by_evaluation := apply (bool_decide_unpack _); vm_compute; exact I.


(** ** The base class [agent] (lines 22-53)

    The options of an agent are a [std::map] from keys to values, filled
    from a whitespace-separated string of [key=value] pairs. *)

(** The exceptions the standard library raises in this file. *)
Inductive exception : Type :=
| out_of_range
| invalid_argument.

Inductive result (A : Type) : Type :=
| Ok (x : A)
| Throw (e : exception).

Arguments Ok {A} _.
Arguments Throw {A} _.

Definition result_bind {A C : Type} (r : result A) (k : A -> result C) : result C :=
  match r with
  | Ok x => k x
  | Throw e => Throw e
  end.

(** [std::isspace] in the classic locale: space, and the controls from
    horizontal tab (9) to carriage return (13). *)
Definition isspace (c : ascii) : bool :=
  let n := Z.of_N (Ascii.N_of_ascii c) in
  (n =? 32) || ((9 <=? n) && (n <=? 13)).

(** The words that [ss >> pair] extracts one after the other until it
    fails: the maximal runs of characters that are not whitespace.  [cur]
    is the word being read. *)
Fixpoint words_from (cur : string) (s : string) : list string :=
  match s with
  | EmptyString => if decide (cur = EmptyString) then [] else [cur]
  | String c s' =>
      if isspace c
      then (if decide (cur = EmptyString) then words_from EmptyString s'
            else cur :: words_from EmptyString s')
      else words_from (cur +:+ String c EmptyString) s'
  end.

Definition words (s : string) : list string := words_from EmptyString s.

(** [size_t] is a 64-bit unsigned integer; [std::string::npos] is its
    greatest value. *)
Definition npos : Z := 18446744073709551615.

Definition size_t_wrap (z : Z) : Z := z mod 18446744073709551616.

Definition string_size (s : string) : Z := Z.of_nat (String.length s).

(** [s.find(ch)]: the position of the first [ch], or [npos]. *)
Fixpoint find_from (ch : ascii) (s : string) (i : Z) : Z :=
  match s with
  | EmptyString => npos
  | String c s' => if Ascii.eqb c ch then i else find_from ch s' (i + 1)
  end.

Definition string_find (s : string) (ch : ascii) : Z := find_from ch s 0.

(** [s.substr(pos, count)]: throws [std::out_of_range] when [pos] exceeds
    the size, and otherwise stops at the end of the string. *)
Definition substr (s : string) (pos count : Z) : result string :=
  if decide (pos <= string_size s)
  then Ok (String.substring (Z.to_nat pos) (Z.to_nat (Z.min count (string_size s - pos))) s)
  else Throw out_of_range.

(** [meta[pair.substr(0, pair.find('='))] = { pair.substr(pair.find('=') + 1) }],
    the statement of the constructor's loop and of [notify]. *)
Definition set_pair (meta : gmap string string) (pair : string) : result (gmap string string) :=
  result_bind (substr pair 0 (string_find pair "="%char)) (fun key =>
  result_bind (substr pair (size_t_wrap (string_find pair "="%char + 1)) npos) (fun value =>
  Ok (<[key := value]> meta))).

Fixpoint set_pairs (meta : gmap string string) (pairs : list string) : result (gmap string string) :=
  match pairs with
  | [] => Ok meta
  | p :: rest => result_bind (set_pair meta p) (fun meta => set_pairs meta rest)
  end.

(** The constructor [agent(args)] (lines 24-31). *)
Definition agent_ctor (args : string) : result (gmap string string) :=
  set_pairs ∅ (words ("name=unknown role=unknown " +:+ args)).

(** [property(key)] is [meta.at(key)], which throws for a missing key. *)
Definition property (meta : gmap string string) (key : string) : result string :=
  match meta !! key with
  | Some v => Ok v
  | None => Throw out_of_range
  end.

Definition notify (meta : gmap string string) (msg : string) : result (gmap string string) :=
  set_pair meta msg.

Definition name (meta : gmap string string) : result string := property meta "name".

Definition role (meta : gmap string string) : result string := property meta "role".

(** A word: not empty and free of whitespace. *)
Fixpoint no_space (s : string) : bool :=
  match s with
  | EmptyString => true
  | String c s' => negb (isspace c) && no_space s'
  end.

Definition is_word (s : string) : Prop := s <> EmptyString /\ no_space s = true.

(** A key can be named in a pair when it holds no ['=']. *)
Fixpoint no_char (ch : ascii) (s : string) : bool :=
  match s with
  | EmptyString => true
  | String c s' => negb (Ascii.eqb c ch) && no_char ch s'
  end.

(** ** Vocabulary for the value network *)

(** The entries [net[i][tuples[i]]] for the table numbers [idx], in order;
    [None] when one of them is out of range. *)
Fixpoint read_entries (n : list weight) (tuples : list Z) (idx : list Z) : option (list float) :=
  match idx with
  | [] => Some []
  | i :: rest =>
      t ← vec_at tuples i;
      w ← net_at n i t;
      ws ← read_entries n tuples rest;
      Some (w :: ws)
  end.

(** The sum [((0 + w0) + w1) + ...] in float arithmetic. *)
Definition sum_floats (ws : list float) : float :=
  foldl Float32.add (Float32.of_int 0) ws.

(** A [weight_agent] constructed without [init] and without [load]: the
    network has no table. *)
Definition bare_agent : weight_agent :=
  {| net := []; alpha := Float32.default_alpha; s_V := Float32.zero;
     train := false; s_tuples := [] |}.

(** ** Construction and destruction of [weight_agent] (lines 75-87) *)

(** A [weight_agent] with the options it inherits from [agent]. *)
Record weight_agent_object : Type := WeightAgentObject {
  wa_meta : gmap string string;
  wa_fields : weight_agent
}.

(** How a constructor ends: the object is built, the process is ended by
    [std::exit], an exception leaves the constructor, or the source does
    not determine the result. *)
Inductive completion (A : Type) : Type :=
| Completed (x : A)
| Exits (status : Z)
| Throws (e : exception)
| Indeterminate.

Arguments Completed {A} _.
Arguments Exits {A} _.
Arguments Throws {A} _.
Arguments Indeterminate {A}.

Definition with_alpha (a : weight_agent) (x : float) : weight_agent :=
  {| net := net a; alpha := x; s_V := s_V a; train := train a; s_tuples := s_tuples a |}.

Section Construction.

(** [float(std::stod(s))], the conversion of an option value to [float];
    [std::stod] throws when [s] is not a number. *)
Variable stod_as_float : string -> result float.

(** The members before the body of the constructor runs: [alpha] is
    0.0125, [train] is 0, the vectors are empty, and [s_V] has no
    initialiser: [s_V0] stands for whatever it holds. *)
Definition members_start (s_V0 : float) : weight_agent :=
  {| net := []; alpha := Float32.default_alpha; s_V := s_V0; train := false; s_tuples := [] |}.

Definition weight_agent_ctor (fs : filesystem) (s_V0 : float) (args : string)
  : completion weight_agent_object :=
  match agent_ctor args with
  | Throw e => Throws e
  | Ok meta =>
      let a := members_start s_V0 in
      let a := if decide (is_Some (meta !! "init"%string))
               then with_net a (init_weights (net a)) else a in
      let loaded := match meta !! "load"%string with
                    | Some path => load_weights fs path a
                    | None => Returned a
                    end in
      match loaded with
      | Exited status => Exits status
      | Unspecified => Indeterminate
      | Returned a =>
          match meta !! "alpha"%string with
          | Some v =>
              match stod_as_float v with
              | Ok x => Completed {| wa_meta := meta; wa_fields := with_alpha a x |}
              | Throw e => Throws e
              end
          | None => Completed {| wa_meta := meta; wa_fields := a |}
          end
      end
  end.

End Construction.

(** The destructor (lines 84-87). *)
Definition weight_agent_dtor (fs : filesystem) (o : weight_agent_object) : outcome filesystem :=
  match wa_meta o !! "save"%string with
  | Some path => save_weights fs path (wa_fields o)
  | None => Returned fs
  end.

(** The options a constructed agent holds ([∅] if construction throws). *)
Definition meta_of (args : string) : gmap string string :=
  match agent_ctor args with
  | Ok meta => meta
  | Throw _ => ∅
  end.

(** A stand-in for [float(std::stod(s))] that knows the number 1. *)
Definition stod_one (s : string) : result float :=
  if decide (s = "1"%string) then Ok one else Throw invalid_argument.

(** ** [my_slider::take_action] (lines 283-297) *)

(** The line [std::cout << "reward:" << Reward << std::endl] writes. *)
Definition reward_line (Reward : Z) : string :=
  "reward:" +:+ NilZero.string_of_int (Z.to_int Reward) +:+ String "010"%char EmptyString.

(** The locals [reward_best] and [op_best], and what was written to
    [std::cout]. *)
Record greedy : Type := Greedy {
  reward_best : Z;
  greedy_op_best : Z;
  written : list string
}.

Section MySlider.

Context {B : Type} `{Board B}.

Definition my_slider_try (before : B) (s : greedy) (op : Z) : greedy :=
  let Reward := (slide before op).1 in
  let out := written s ++ [reward_line Reward] in
  if Reward >? reward_best s
  then {| reward_best := Reward; greedy_op_best := op; written := out |}
  else {| reward_best := reward_best s; greedy_op_best := greedy_op_best s; written := out |}.

Definition my_slider_take_action (before : B) : action * list string :=
  let s := foldl (my_slider_try before)
                 {| reward_best := -1; greedy_op_best := -1; written := [] |} opcode in
  if decide (greedy_op_best s ≠ -1)
  then (action_slide (greedy_op_best s), written s)
  else (action_null, written s).

End MySlider.

(** ** [random_slider::take_action] (lines 258-265) *)

(** The fields of [random_slider]: its own [opcode], which [std::shuffle]
    permutes in place, and the random engine. *)
Record random_slider (engine : Type) : Type := RandomSlider {
  rs_opcode : list Z;
  rs_engine : engine
}.

Arguments RandomSlider {engine} _ _.
Arguments rs_opcode {engine} _.
Arguments rs_engine {engine} _.

Section RandomSlider.

Context {B : Type} `{Board B}.

(** The random engine and [std::shuffle(first, last, engine)], which
    returns the permuted range and advances the engine. *)
Variable engine : Type.
Variable shuffle : engine -> list Z -> list Z * engine.

(** The loop over the shuffled [opcode]. *)
Fixpoint first_legal (before : B) (ops : list Z) : action :=
  match ops with
  | [] => action_null
  | op :: rest =>
      let reward := (slide before op).1 in
      if negb (reward =? -1) then action_slide op else first_legal before rest
  end.

Definition random_slider_take_action (a : random_slider engine) (before : B)
  : action * random_slider engine :=
  let '(ops, e) := shuffle (rs_engine a) (rs_opcode a) in
  (first_legal before ops, {| rs_opcode := ops; rs_engine := e |}).

End RandomSlider.

(** A shuffle for the examples: it rotates the range by one and counts
    its calls. *)
Definition rotate_shuffle (e : nat) (l : list Z) : list Z * nat :=
  (match l with [] => [] | x :: rest => rest ++ [x] end, S e).

(** ** [random_placer::take_action] (lines 215-247) *)

(** What the placer asks of a board (board.h): [last()], the direction of
    the last slide; [after(pos)], the tile at a position 0..15; [bag(t)],
    how many tiles [t] remain in the bag; [hint()], the announced tile or
    0. *)
Class PlacerBoard (B : Type) : Type := {
  last_slide : B -> Z;
  tile_at : B -> Z -> cell;
  bag : B -> Z -> Z;
  hint : B -> cell
}.

(** [action::place(pos, tile, hint)] and [action()]. *)
Inductive placement : Type :=
| action_place (pos tile hint : Z)
| placement_null.

(** The table [spaces] that the constructor fills (lines 218-222). *)
Definition spaces : list (list Z) :=
  [[12; 13; 14; 15]; [0; 4; 8; 12]; [0; 1; 2; 3]; [3; 7; 11; 15];
   [0; 1; 2; 3; 4; 5; 6; 7; 8; 9; 10; 11; 12; 13; 14; 15]].

(** [bag[--num]]: the last element of the range still in use; undefined
    when [num] is 0. *)
Definition pop_back (l : list Z) : option (Z * list Z) :=
  match reverse l with
  | x :: r => Some (x, reverse r)
  | [] => None
  end.

Section RandomPlacer.

Context {B : Type} `{PlacerBoard B}.

Variable engine : Type.
Variable shuffle : engine -> list Z -> list Z * engine.

(** The tiles written to [bag[0..num)] by the two nested loops. *)
Definition bag_tiles (after : B) : list Z :=
  foldl (fun l t => l ++ replicate (Z.to_nat (bag after t)) t) [] (seqZ 1 3).

(** [int bag[3]] holds three tiles: writing a fourth is out of bounds. *)
Definition fill_bag (after : B) : option (list Z) :=
  if decide (length (bag_tiles after) <= 3)%nat then Some (bag_tiles after) else None.

(** The statements of the loop body once an empty position is found
    (lines 231-240). *)
Definition draw_tiles (after : B) (e : engine) (pos : Z) : option (placement * engine) :=
  l ← fill_bag after;
  let '(l, e) := shuffle e l in
  '(tile, l) ← (if decide (hint after ≠ 0) then Some (hint after, l) else pop_back l);
  '(h, _) ← pop_back l;
  Some (action_place pos tile h, e).

(** The loop over the shuffled positions. *)
Fixpoint place_first (after : B) (e : engine) (space : list Z) : option (placement * engine) :=
  match space with
  | [] => Some (placement_null, e)
  | pos :: rest =>
      if decide (tile_at after pos ≠ 0) then place_first after e rest
      else draw_tiles after e pos
  end.

Definition random_placer_take_action (e : engine) (after : B) : option (placement * engine) :=
  space ← vec_at spaces (last_slide after);
  let '(space, e) := shuffle e space in
  place_first after e space.

End RandomPlacer.

(** A board for the examples, given by its answers. *)
Record placer_script : Type := PlacerScript {
  ps_last : Z;
  ps_tiles : list Z;
  ps_bag : list Z;
  ps_hint : Z
}.

#[export] Instance placer_script_board : PlacerBoard placer_script :=
  {| last_slide := ps_last;
     tile_at b pos := default 0 (vec_at (ps_tiles b) pos);
     bag b t := default 0 (vec_at (ps_bag b) t);
     hint := ps_hint |}.

(** After a slide to the right of [grid_one_right]: the tile 1 sits at
    position 1, the bag holds one 2 and one 3, and no tile is announced. *)
Definition placer_example : placer_script :=
  {| ps_last := 1; ps_tiles := [0; 1; 0; 0; 0; 0; 0; 0; 0; 0; 0; 0; 0; 0; 0; 0];
     ps_bag := [0; 0; 1; 1]; ps_hint := 0 |}.
(** * Properties *)

(** ** Integers and the feature extractor *)

Lemma wrap_small (z : Z) : -2147483648 <= z < 2147483648 -> Int32.wrap z = z.
Proof.
  intros Hz. unfold Int32.wrap.
  rewrite Z.mod_small by lia. lia.
Qed.

Lemma pack4_exact (a b c d : Z) :
  cell_ok a -> cell_ok b -> cell_ok c -> cell_ok d ->
  pack4 a b c d = index_of a b c d.
Proof.
  unfold cell_ok, pack4, index_of, Int32.add, Int32.mul. intros Ha Hb Hc Hd.
  rewrite !(wrap_small (16 * 16)) by lia.
  rewrite !(wrap_small (16 * 16 * 16)) by lia.
  rewrite (wrap_small (16 * 16 * 16 * a)) by lia.
  rewrite (wrap_small (16 * 16 * b)) by lia.
  rewrite (wrap_small (16 * c)) by lia.
  rewrite (wrap_small (16 * 16 * 16 * a + 16 * 16 * b)) by lia.
  rewrite (wrap_small (16 * 16 * 16 * a + 16 * 16 * b + 16 * c)) by lia.
  rewrite wrap_small by lia. lia.
Qed.

Lemma index_of_range (a b c d : Z) :
  cell_ok a -> cell_ok b -> cell_ok c -> cell_ok d ->
  0 <= index_of a b c d <= 65535.
Proof. unfold cell_ok, index_of. lia. Qed.

(** The loop of [get_tuple] unrolled: the four rows, then the four
    columns. *)
Lemma get_tuple_unfold (g : grid) :
  get_tuple g =
  [row_pack (a0 g); row_pack (a1 g); row_pack (a2 g); row_pack (a3 g);
   row_pack (column g a0); row_pack (column g a1);
   row_pack (column g a2); row_pack (column g a3)].
Proof. destruct g as [[] [] [] []]. reflexivity. Qed.

Lemma row_pack_exact (r : row) :
  cell_ok (a0 r) -> cell_ok (a1 r) -> cell_ok (a2 r) -> cell_ok (a3 r) ->
  row_pack r = row_index r /\ 0 <= row_index r <= 65535.
Proof.
  intros H0 H1 H2 H3. unfold row_pack, row_index.
  rewrite !wrap_small by (unfold cell_ok in *; lia).
  split; [apply pack4_exact | apply index_of_range]; assumption.
Qed.

Lemma grid_ok_cells (g : grid) :
  grid_ok g ->
  forall r, r ∈ [a0 g; a1 g; a2 g; a3 g] ->
  cell_ok (a0 r) /\ cell_ok (a1 r) /\ cell_ok (a2 r) /\ cell_ok (a3 r).
Proof.
  destruct g as [[] [] [] []]. unfold grid_ok, cells. simpl.
  rewrite !Forall_cons. intros Hg r Hr.
  rewrite !elem_of_cons, elem_of_nil in Hr.
  destruct Hr as [-> | [-> | [-> | [-> | []]]]]; simpl; tauto.
Qed.

Lemma grid_rows_exact (g : grid) :
  grid_ok g ->
  forall r, r ∈ [a0 g; a1 g; a2 g; a3 g; column g a0; column g a1; column g a2; column g a3] ->
  row_pack r = row_index r /\ 0 <= row_index r <= 65535.
Proof.
  intros Hg r Hr.
  assert (Hin : forall x, x = a0 g \/ x = a1 g \/ x = a2 g \/ x = a3 g ->
                      x ∈ [a0 g; a1 g; a2 g; a3 g])
    by (intros x Hx; rewrite !elem_of_cons; tauto).
  destruct (grid_ok_cells g Hg (a0 g)) as (? & ? & ? & ?); [apply Hin; tauto|].
  destruct (grid_ok_cells g Hg (a1 g)) as (? & ? & ? & ?); [apply Hin; tauto|].
  destruct (grid_ok_cells g Hg (a2 g)) as (? & ? & ? & ?); [apply Hin; tauto|].
  destruct (grid_ok_cells g Hg (a3 g)) as (? & ? & ? & ?); [apply Hin; tauto|].
  rewrite !elem_of_cons, elem_of_nil in Hr.
  destruct Hr as [-> | [-> | [-> | [-> | [-> | [-> | [-> | [-> | []]]]]]]]];
    apply row_pack_exact; simpl; assumption.
Qed.

Lemma get_tuple_exact (g : grid) :
  grid_ok g ->
  get_tuple g =
  [row_index (a0 g); row_index (a1 g); row_index (a2 g); row_index (a3 g);
   row_index (column g a0); row_index (column g a1);
   row_index (column g a2); row_index (column g a3)].
Proof.
  intros Hg. rewrite get_tuple_unfold.
  pose proof (grid_rows_exact g Hg) as Hr.
  pose proof (fun r Hin => proj1 (Hr r Hin)) as He.
  rewrite !He by (rewrite !elem_of_cons; tauto).
  reflexivity.
Qed.

Lemma get_tuple_ok (g : grid) : grid_ok g -> tuples_ok (get_tuple g).
Proof.
  intros Hg. rewrite (get_tuple_exact g Hg).
  pose proof (grid_rows_exact g Hg) as Hr.
  split; [reflexivity|].
  repeat apply Forall_cons_2; try apply Forall_nil_2;
    apply Hr; rewrite !elem_of_cons; tauto.
Qed.

(** ** Vectors, tables and the loops over the eight tables *)

Lemma vec_at_Some {A : Type} (v : list A) (i : Z) (x : A) :
  vec_at v i = Some x <-> 0 <= i /\ v !! Z.to_nat i = Some x.
Proof.
  unfold vec_at. destruct (decide (0 <= i)) as [Hi|Hi]; split.
  - intros Hx. split; assumption.
  - intros [_ Hx]. exact Hx.
  - discriminate.
  - intros [Hi' _]. contradiction.
Qed.

Lemma vec_at_is_Some {A : Type} (v : list A) (i : Z) :
  0 <= i < Z.of_nat (length v) -> is_Some (vec_at v i).
Proof.
  intros Hi. unfold vec_at. rewrite decide_True by lia.
  apply lookup_lt_is_Some_2. lia.
Qed.

Lemma seqZ_0_8 : seqZ 0 8 = [0; 1; 2; 3; 4; 5; 6; 7].
Proof. reflexivity. Qed.

Lemma elem_of_seqZ_0_8 (i : Z) : i ∈ seqZ 0 8 <-> 0 <= i < 8.
Proof. rewrite seqZ_0_8, !elem_of_cons, elem_of_nil. lia. Qed.

Lemma tuples_ok_at (t : list Z) (i : Z) :
  tuples_ok t -> 0 <= i < 8 -> exists x, vec_at t i = Some x /\ 0 <= x <= 65535.
Proof.
  intros [Hlen Hall] Hi.
  destruct (vec_at_is_Some t i) as [x Hx]; [lia|].
  exists x. split; [exact Hx|].
  apply vec_at_Some in Hx as [_ Hx].
  rewrite Forall_forall in Hall. apply Hall.
  eapply list_elem_of_lookup_2. exact Hx.
Qed.

Lemma net_at_is_Some (n : list weight) (i t : Z) :
  net_ok n -> 0 <= i < 8 -> 0 <= t <= 65535 -> is_Some (net_at n i t).
Proof.
  intros [Hlen Hall] Hi Ht. unfold net_at.
  destruct (vec_at_is_Some n i) as [w Hw]; [lia|].
  rewrite Hw. simpl. apply vec_at_is_Some.
  apply vec_at_Some in Hw as [_ Hw].
  rewrite Forall_forall in Hall.
  rewrite (Hall w) by (eapply list_elem_of_lookup_2; exact Hw).
  unfold table_size. lia.
Qed.

(** The effect of [net[i][t] = x] on every entry of the network. *)
Lemma net_set_spec (n : list weight) (i t : Z) (x : float) :
  is_Some (net_at n i t) ->
  exists n',
    net_set n i t x = Some n' /\
    length <$> n' = length <$> n /\
    forall i' j', net_at n' i' j' =
                  if decide (i' = i /\ j' = t) then Some x else net_at n i' j'.
Proof.
  unfold net_at, net_set. intros [old Hold].
  destruct (vec_at n i) as [w|] eqn:Hw; [|discriminate]. simpl in Hold |- *.
  rewrite Hold. simpl.
  apply vec_at_Some in Hw as [Hi Hw]. apply vec_at_Some in Hold as [Ht Hold].
  eexists. split; [reflexivity|]. split.
  - rewrite list_fmap_insert, length_insert.
    apply list_insert_id. rewrite list_lookup_fmap, Hw. reflexivity.
  - intros i' j'. unfold vec_at.
    destruct (decide (0 <= i')) as [Hi'|Hi']; [|rewrite decide_False by lia; reflexivity].
    destruct (decide (i' = i)) as [->|Hne].
    + rewrite list_lookup_insert_eq by (eapply lookup_lt_Some; exact Hw).
      rewrite Hw. simpl.
      destruct (decide (0 <= j')) as [Hj'|Hj']; [|rewrite decide_False by lia; reflexivity].
      destruct (decide (j' = t)) as [->|Hnj].
      * rewrite decide_True by tauto.
        apply list_lookup_insert_eq. eapply lookup_lt_Some; exact Hold.
      * rewrite decide_False by tauto.
        apply list_lookup_insert_ne. lia.
    + rewrite decide_False by tauto.
      rewrite list_lookup_insert_ne by lia. reflexivity.
Qed.

Lemma net_ok_shape (n n' : list weight) :
  length <$> n' = length <$> n -> net_ok n -> net_ok n'.
Proof.
  unfold net_ok. intros Hs [Hlen Hall]. split.
  - rewrite <- Hlen. f_equal.
    rewrite <- (length_fmap length n'), Hs. apply length_fmap.
  - apply Forall_lookup. intros i w' Hw'.
    assert (Hl : (length <$> n) !! i = Some (length w'))
      by (rewrite <- Hs, list_lookup_fmap, Hw'; reflexivity).
    rewrite list_lookup_fmap in Hl.
    destruct (n !! i) as [w|] eqn:Hw; [|discriminate].
    injection Hl as Hl. rewrite <- Hl.
    rewrite Forall_lookup in Hall. exact (Hall i w Hw).
Qed.

(** A loop keeps an invariant that every round keeps. *)
Lemma for_each_inv {S : Type} (P : S -> Prop) (body : Z -> S -> option S)
      (idx : list Z) (s : S) :
  P s ->
  (forall i s0, i ∈ idx -> P s0 -> exists s1, body i s0 = Some s1 /\ P s1) ->
  exists s', for_each body idx s = Some s' /\ P s'.
Proof.
  revert s. induction idx as [|i rest IH]; intros s Hs Hbody; simpl.
  - eauto.
  - destruct (Hbody i s) as (s1 & -> & Hs1); [left|exact Hs|]. simpl.
    apply IH; [exact Hs1|]. intros j s0 Hj. apply Hbody. right. exact Hj.
Qed.

Lemma get_V_is_Some (n : list weight) (t : list Z) :
  net_ok n -> tuples_ok t -> is_Some (get_V n t).
Proof.
  intros Hn Ht. unfold get_V.
  destruct (for_each_inv (fun _ => True)
              (fun i result => x ← vec_at t i; w ← net_at n i x; Some (Float32.add result w))
              (seqZ 0 8) (Float32.of_int 0) I) as (v & Hv & _); [|eauto].
  intros i s0 Hi _. apply elem_of_seqZ_0_8 in Hi.
  destruct (tuples_ok_at t i Ht Hi) as (x & -> & Hx). simpl.
  destruct (net_at_is_Some n i x Hn Hi Hx) as [w ->]. simpl. eauto.
Qed.

(** The scalar that [update_weight] and [last_update] add to an entry. *)
Lemma with_net_fields (a : weight_agent) (n : list weight) :
  net (with_net a n) = n /\ alpha (with_net a n) = alpha a /\
  s_V (with_net a n) = s_V a /\ train (with_net a n) = train a /\
  s_tuples (with_net a n) = s_tuples a.
Proof. repeat split. Qed.

(** One round of the update loop. *)
Lemma adjust_entry_spec (target : float) (i t : Z) (a : weight_agent) :
  vec_at (s_tuples a) i = Some t ->
  is_Some (net_at (net a) i t) ->
  exists a',
    adjust_entry target i a = Some a' /\
    alpha a' = alpha a /\ s_V a' = s_V a /\ train a' = train a /\
    s_tuples a' = s_tuples a /\
    length <$> net a' = length <$> net a /\
    forall i' j', net_at (net a') i' j' =
                  if decide (i' = i /\ j' = t)
                  then (fun old => Float32.add old (step_size a target)) <$> net_at (net a) i' j'
                  else net_at (net a) i' j'.
Proof.
  intros Ht Hsome. unfold adjust_entry. rewrite Ht. simpl.
  destruct Hsome as [old Hold]. rewrite Hold. simpl.
  destruct (net_set_spec (net a) i t
              (Float32.add old (Float32.mul (alpha a) (Float32.sub target (s_V a)))))
    as (n' & -> & Hshape & Hat); [rewrite Hold; eauto|]. simpl.
  eexists. split; [reflexivity|]. simpl. repeat split; [exact Hshape|].
  intros i' j'. rewrite Hat.
  destruct (decide (i' = i /\ j' = t)) as [[-> ->]|]; [|reflexivity].
  rewrite Hold. reflexivity.
Qed.

(** The whole loop, over any list of distinct table numbers. *)
Lemma adjust_loop_spec (target : float) (idx : list Z) :
  forall a : weight_agent,
  NoDup idx ->
  (forall i, i ∈ idx ->
             exists t, vec_at (s_tuples a) i = Some t /\ is_Some (net_at (net a) i t)) ->
  exists a',
    for_each (adjust_entry target) idx a = Some a' /\
    alpha a' = alpha a /\ s_V a' = s_V a /\ train a' = train a /\
    s_tuples a' = s_tuples a /\
    length <$> net a' = length <$> net a /\
    forall i j, net_at (net a') i j =
                if decide (i ∈ idx /\ vec_at (s_tuples a) i = Some j)
                then (fun old => Float32.add old (step_size a target)) <$> net_at (net a) i j
                else net_at (net a) i j.
Proof.
  induction idx as [|k rest IH]; intros a Hnd Hidx; simpl.
  - exists a. repeat split.
  - apply NoDup_cons in Hnd as [Hk Hnd].
    destruct (Hidx k) as (t & Ht & Hsome); [left|].
    destruct (adjust_entry_spec target k t a Ht Hsome)
      as (a1 & -> & Hal & HV & Htr & Htu & Hshape & Hat). simpl.
    destruct (IH a1 Hnd) as (a' & -> & Hal' & HV' & Htr' & Htu' & Hshape' & Hat').
    { intros i Hi. destruct (Hidx i) as (ti & Hti & Hs); [right; exact Hi|].
      exists ti. rewrite Htu. split; [exact Hti|].
      rewrite Hat, decide_False; [exact Hs|].
      intros [-> _]. contradiction. }
    exists a'. split; [reflexivity|].
    repeat split; try congruence.
    intros i j. rewrite Hat', Htu, !Hat.
    assert (Hstep : step_size a1 target = step_size a target)
      by (unfold step_size; congruence).
    rewrite Hstep.
    destruct (decide (i = k /\ j = t)) as [[-> ->]|Hne].
    + rewrite (decide_False (P := k ∈ rest /\ _)) by tauto.
      rewrite decide_True; [reflexivity|]. split; [left|exact Ht].
    + destruct (decide (i ∈ rest /\ vec_at (s_tuples a) i = Some j)) as [[Hin Hj]|Hnr].
      * rewrite decide_True; [reflexivity|]. split; [right; exact Hin|exact Hj].
      * rewrite decide_False; [reflexivity|].
        intros [Hin Hj]. apply elem_of_cons in Hin as [->|Hin]; [|tauto].
        apply Hne. split; [reflexivity|]. congruence.
Qed.

(** The two learning steps on a well-formed state. *)
Lemma adjust_all_spec (target : float) (a : weight_agent) :
  net_ok (net a) -> tuples_ok (s_tuples a) ->
  exists a',
    for_each (adjust_entry target) (seqZ 0 8) a = Some a' /\
    alpha a' = alpha a /\ s_V a' = s_V a /\ train a' = train a /\
    s_tuples a' = s_tuples a /\
    net_ok (net a') /\
    length <$> net a' = length <$> net a /\
    forall i j, net_at (net a') i j =
                if decide (touched a i j)
                then (fun old => Float32.add old (step_size a target)) <$> net_at (net a) i j
                else net_at (net a) i j.
Proof.
  intros Hn Ht.
  destruct (adjust_loop_spec target (seqZ 0 8) a (NoDup_seqZ 0 8))
    as (a' & Hrun & Hal & HV & Htr & Htu & Hshape & Hat).
  { intros i Hi. apply elem_of_seqZ_0_8 in Hi.
    destruct (tuples_ok_at _ i Ht Hi) as (t & Hti & Hr).
    exists t. split; [exact Hti|]. apply net_at_is_Some; assumption. }
  assert (Hn' : net_ok (net a')) by (eapply net_ok_shape; [exact Hshape|exact Hn]).
  exists a'. split; [exact Hrun|]. do 4 (split; [assumption|]). split; [exact Hn'|].
  split; [exact Hshape|].
  intros i j. rewrite Hat. unfold touched.
  destruct (decide (i ∈ seqZ 0 8 /\ vec_at (s_tuples a) i = Some j)) as [[Hi Hj]|Hno].
  - rewrite decide_True; [reflexivity|]. apply elem_of_seqZ_0_8 in Hi. tauto.
  - rewrite decide_False; [reflexivity|]. intros [Hi Hj]. apply Hno.
    split; [apply elem_of_seqZ_0_8; exact Hi|exact Hj].
Qed.

(** ** Comparison of floats *)

Lemma SFcompare_irrefl (x : spec_float) : SFcompare x x <> Some Gt.
Proof.
  destruct x as [[]|[]| |[] m e]; simpl; try congruence; compare_cases.
Qed.

Lemma SFcompare_ge_gt_trans (x y z : spec_float) :
  SFcompare x y = Some Gt \/ SFcompare x y = Some Eq ->
  SFcompare y z = Some Gt ->
  SFcompare x z = Some Gt.
Proof.
  destruct x as [[]|[]| |[] mx ex], y as [[]|[]| |[] my ey], z as [[]|[]| |[] mz ez];
    simpl; intros [Hxy|Hxy] Hyz; try congruence; compare_cases.
Qed.

Lemma gt_irrefl (x : float) : Float32.gt x x = false.
Proof.
  unfold Float32.gt. pose proof (SFcompare_irrefl (Float32.decode x)) as Hx.
  destruct (SFcompare (Float32.decode x) (Float32.decode x)) as [[]|]; congruence.
Qed.

Lemma gt_ge (x y : float) : Float32.gt x y = true -> Float32.ge x y = true.
Proof.
  unfold Float32.gt, Float32.ge.
  destruct (SFcompare (Float32.decode x) (Float32.decode y)) as [[]|]; congruence.
Qed.

Lemma ge_gt_trans (x y z : float) :
  Float32.ge x y = true -> Float32.gt y z = true -> Float32.gt x z = true.
Proof.
  unfold Float32.gt, Float32.ge. intros Hxy Hyz.
  rewrite (SFcompare_ge_gt_trans (Float32.decode x) (Float32.decode y) (Float32.decode z));
    [reflexivity| |].
  - destruct (SFcompare (Float32.decode x) (Float32.decode y)) as [[]|]; auto; discriminate.
  - destruct (SFcompare (Float32.decode y) (Float32.decode z)) as [[]|]; auto; discriminate.
Qed.

Lemma gt_trans (x y z : float) :
  Float32.gt x y = true -> Float32.gt y z = true -> Float32.gt x z = true.
Proof. intros Hxy. apply ge_gt_trans, gt_ge, Hxy. Qed.

(** A candidate that did not beat the incumbent does not reach a value
    that beats the incumbent. *)
Lemma not_gt_below (c b r : float) :
  Float32.gt c b = false -> Float32.gt r b = true -> Float32.ge c r = false.
Proof.
  intros Hcb Hrb. destruct (Float32.ge c r) eqn:Hcr; [|reflexivity].
  rewrite (ge_gt_trans c r b Hcr Hrb) in Hcb. discriminate.
Qed.

Lemma not_ge_not_gt (x y : float) : Float32.ge x y = false -> Float32.gt x y = false.
Proof.
  intros Hge. destruct (Float32.gt x y) eqn:Hgt; [|reflexivity].
  rewrite (gt_ge x y Hgt) in Hge. discriminate.
Qed.

(** ** The search of [take_action] *)

(** A loop keeps an invariant that follows the indices already visited. *)
Lemma for_each_prefix {S : Type} (P : list Z -> S -> Prop) (body : Z -> S -> option S)
      (idx : list Z) :
  forall (visited : list Z) (s : S),
  P visited s ->
  (forall i d s0, i ∈ idx -> P d s0 -> exists s1, body i s0 = Some s1 /\ P (d ++ [i]) s1) ->
  exists s', for_each body idx s = Some s' /\ P (visited ++ idx) s'.
Proof.
  induction idx as [|i rest IH]; intros visited s Hs Hbody; simpl.
  - exists s. rewrite app_nil_r. split; [reflexivity|exact Hs].
  - destruct (Hbody i visited s) as (s1 & -> & Hs1); [left|exact Hs|]. simpl.
    destruct (IH (visited ++ [i]) s1 Hs1) as (s' & Hrun & Hs').
    { intros j d s0 Hj. apply Hbody. right. exact Hj. }
    exists s'. split; [exact Hrun|].
    rewrite <- app_assoc in Hs'. exact Hs'.
Qed.

Section EngineFacts.

Context {B : Type} `{Board B}.

Lemma beaten_by_snoc (n : list weight) (before : B) (ops : list Z) (op : Z) (b : float)
      (cmp : float -> float -> bool) :
  beaten_by n before ops b cmp ->
  (forall c, legal before op = true -> candidate n before op = Some c -> cmp c b = false) ->
  beaten_by n before (ops ++ [op]) b cmp.
Proof.
  intros Hops Hop e c He. apply elem_of_app in He as [He|He].
  - apply Hops. exact He.
  - apply list_elem_of_singleton in He as ->. apply Hop.
Qed.

(** One round of the search keeps [search_inv]. *)
Lemma try_op_spec (a : weight_agent) (before : B) (op : Z) (visited : list Z) (s : search) :
  net_ok (net a) -> grid_ok (state_plun before op) ->
  search_inv (net a) before visited s ->
  exists s', try_op a before op s = Some s' /\
             search_inv (net a) before (visited ++ [op]) s'.
Proof.
  intros Hn Hg [Hmax Hsel]. unfold try_op.
  destruct (get_V_is_Some (net a) (get_tuple (state_plun before op)) Hn (get_tuple_ok _ Hg))
    as [V HV].
  assert (Hcand : candidate (net a) before op =
                  Some (Float32.add (Float32.of_int (reward_of before op)) V))
    by (unfold candidate, afterstate_tuples; rewrite HV; reflexivity).
  assert (Hkeep : forall post pre,
             visited = pre ++ op_best s :: post ->
             visited ++ [op] = pre ++ op_best s :: (post ++ [op]))
    by (intros post pre ->; rewrite <- app_assoc; reflexivity).
  unfold reward_of in Hcand. unfold legal in *.
  destruct (slide before op) as [reward tmp] eqn:Hslide. simpl in Hcand.
  destruct (reward =? -1) eqn:Hreward.
  - (* the slide is illegal and the locals stay *)
    exists s. split; [reflexivity|]. split.
    + apply beaten_by_snoc; [exact Hmax|].
      unfold legal. rewrite Hslide. simpl. rewrite Hreward. discriminate.
    + destruct Hsel as [Hnone|(Hl & Hc & Hgt & pre & post & Hv & Hpre)]; [left; exact Hnone|].
      right. repeat split; try assumption.
      exists pre, (post ++ [op]). split; [apply Hkeep; exact Hv|exact Hpre].
  - rewrite HV. cbn [mbind option_bind].
    set (r_V := Float32.add (Float32.of_int (Int32.sub (value tmp) (value before))) V) in *.
    destruct (Float32.gt r_V (r_V_best s)) eqn:Hbetter.
    + (* strict improvement: the direction becomes the incumbent *)
      eexists. split; [reflexivity|]. unfold search_inv. cbn [op_best r_V_best].
      assert (Hbelow : beaten_by (net a) before visited r_V Float32.ge).
      { intros e c He Hle Hce. eapply not_gt_below; [|exact Hbetter].
        exact (Hmax e c He Hle Hce). }
      split.
      * apply beaten_by_snoc.
        -- intros e c He Hle Hce. apply not_ge_not_gt. exact (Hbelow e c He Hle Hce).
        -- intros c _ Hc. rewrite Hcand in Hc. injection Hc as <-. apply gt_irrefl.
      * right. split; [|split; [exact Hcand|split]].
        -- unfold legal. rewrite Hslide. simpl. rewrite Hreward. reflexivity.
        -- destruct Hsel as [[_ Hstart]|(_ & _ & Hgt & _)].
           ++ rewrite <- Hstart. exact Hbetter.
           ++ eapply gt_trans; [exact Hbetter|exact Hgt].
        -- exists visited, []. split; [reflexivity|exact Hbelow].
    + (* no strict improvement: the incumbent stays *)
      exists s. split; [reflexivity|]. split.
      * apply beaten_by_snoc; [exact Hmax|].
        intros c _ Hc. rewrite Hcand in Hc. injection Hc as <-. exact Hbetter.
      * destruct Hsel as [Hnone|(Hl & Hc & Hgt & pre & post & Hv & Hpre)]; [left; exact Hnone|].
        right. repeat split; try assumption.
        exists pre, (post ++ [op]). split; [apply Hkeep; exact Hv|exact Hpre].
Qed.

Lemma board_ok_at (before : B) (op : Z) :
  board_ok before -> op = -1 \/ op ∈ opcode -> grid_ok (state_plun before op).
Proof.
  unfold board_ok. rewrite Forall_forall. intros Hb Hop. apply Hb.
  destruct Hop as [->|Hop]; [left|right; exact Hop].
Qed.

Lemma run_search_spec (a : weight_agent) (before : B) :
  net_ok (net a) -> board_ok before ->
  exists s, run_search a before = Some s /\ search_inv (net a) before opcode s.
Proof.
  intros Hn Hb. unfold run_search.
  apply (for_each_prefix (search_inv (net a) before) (try_op a before) opcode [] search_start).
  - split; [|left; split; reflexivity].
    intros op c Hop. apply elem_of_nil in Hop. contradiction.
  - intros i d s0 Hi Hinv. apply try_op_spec; [exact Hn| |exact Hinv].
    apply board_ok_at; [exact Hb|right; exact Hi].
Qed.

Lemma search_inv_op_best (n : list weight) (before : B) (s : search) :
  search_inv n before opcode s -> op_best s = -1 \/ op_best s ∈ opcode.
Proof.
  intros [_ [[Hnone _]|(_ & _ & _ & pre & post & Hv & _)]]; [left; exact Hnone|].
  right. rewrite Hv. apply elem_of_app. right. left.
Qed.

Lemma opcode_not_sentinel (op : Z) : op ∈ opcode -> op <> -1.
Proof. unfold opcode. rewrite !elem_of_cons, elem_of_nil. lia. Qed.

(** [take_action] on a well-formed state, step by step. *)
Lemma take_action_spec (a : weight_agent) (before : B) :
  agent_ok a -> board_ok before ->
  exists s a1 V,
    run_search a before = Some s /\
    search_inv (net a) before opcode s /\
    (if train a then update_weight a (r_V_best s) = Some a1 else a1 = a) /\
    net_ok (net a1) /\ alpha a1 = alpha a /\
    get_V (net a1) (afterstate_tuples before (op_best s)) = Some V /\
    take_action a before =
    Some (if decide (op_best s ≠ -1) then action_slide (op_best s) else action_null,
          {| net := net a1; alpha := alpha a; s_V := V; train := true;
             s_tuples := afterstate_tuples before (op_best s) |}).
Proof.
  intros [Hn Ht] Hb.
  destruct (run_search_spec a before Hn Hb) as (s & Hrun & Hinv).
  assert (Hupd : exists a1, (if train a then update_weight a (r_V_best s) = Some a1 else a1 = a)
                            /\ net_ok (net a1) /\ alpha a1 = alpha a).
  { destruct (train a) eqn:Htrain.
    - destruct (adjust_all_spec (r_V_best s) a Hn (Ht eq_refl))
        as (a1 & Hupd & Hal & _ & _ & _ & Hn1 & _).
      exists a1. split; [exact Hupd|]. split; [exact Hn1|exact Hal].
    - exists a. split; [reflexivity|]. split; [exact Hn|reflexivity]. }
  destruct Hupd as (a1 & Hupd & Hn1 & Hal).
  pose proof (board_ok_at before (op_best s) Hb (search_inv_op_best _ _ _ Hinv)) as Hg.
  destruct (get_V_is_Some (net a1) (get_tuple (state_plun before (op_best s))) Hn1
              (get_tuple_ok _ Hg)) as [V HV].
  exists s, a1, V. split; [exact Hrun|]. split; [exact Hinv|].
  split; [exact Hupd|]. split; [exact Hn1|]. split; [exact Hal|].
  split; [exact HV|].
  unfold take_action. rewrite Hrun. simpl.
  destruct (train a).
  - rewrite Hupd. simpl. rewrite HV. simpl. rewrite Hal.
    destruct (decide (op_best s ≠ -1)); reflexivity.
  - subst a1. simpl. rewrite HV. simpl.
    destruct (decide (op_best s ≠ -1)); reflexivity.
Qed.

End EngineFacts.

(** ** The feature extractor: index layout and range *)


(** C5.  [get_tuple] is a function of the grid alone, so it gives the same
    result whenever it is called on the same grid.  On every grid it
    returns exactly 8 indices: those of row 0 to row 3 followed by those of
    column 0 to column 3, each packed from the four cells of that row or
    column, most significant first.  A grid is a 4x4 matrix of 4-bit cells
    ([grid_ok]), and there the packing does not overflow: each index is
    [4096*d0 + 256*d1 + 16*d2 + d3] for the cells [d0..d3]. *)
Theorem get_tuple_rows_then_columns (g : grid) :
  length (get_tuple g) = 8%nat /\
  get_tuple g =
  [row_pack (a0 g); row_pack (a1 g); row_pack (a2 g); row_pack (a3 g);
   row_pack (column g a0); row_pack (column g a1);
   row_pack (column g a2); row_pack (column g a3)] /\
  (grid_ok g ->
   get_tuple g =
   [row_index (a0 g); row_index (a1 g); row_index (a2 g); row_index (a3 g);
    row_index (column g a0); row_index (column g a1);
    row_index (column g a2); row_index (column g a3)]) /\
  forall r : row, row_index r = 4096 * a0 r + 256 * a1 r + 16 * a2 r + a3 r.
Proof.
  split; [rewrite get_tuple_unfold; reflexivity|].
  split; [apply get_tuple_unfold|].
  split; [apply get_tuple_exact|].
  intros r. reflexivity.
Qed.

Lemma get_tuple_rows_then_columns_witness :
  get_tuple grid_merge = [8448; 0; 0; 0; 8192; 4096; 0; 0] /\
  length (get_tuple grid_merge) = 8%nat.
Proof.
  destruct (get_tuple_rows_then_columns grid_merge) as (Hlen & _ & Hidx & _).
  split; [|exact Hlen]. apply Hidx. by_evaluation.
Defined.

(** C6.  On a grid whose 16 cells lie in 0..15 each of the 8 indices of
    [get_tuple] lies in 0..65535.  Hence, on a network of 8 tables of 65536
    entries, every lookup [net[i][tuples[i]]] finds its entry, [get_V] is
    defined, and so are [update_weight] and [last_update] when the carried
    tuples were produced this way: no access is out of bounds. *)
Theorem get_tuple_in_table_bounds (g : grid) :
  grid_ok g ->
  Forall (fun t => 0 <= t <= 65535) (get_tuple g) /\
  forall n : list weight, net_ok n ->
    (forall i, 0 <= i < 8 ->
               exists t w, vec_at (get_tuple g) i = Some t /\ net_at n i t = Some w) /\
    is_Some (get_V n (get_tuple g)) /\
    forall a target, net a = n -> s_tuples a = get_tuple g ->
                     is_Some (update_weight a target) /\ is_Some (last_update a).
Proof.
  intros Hg. pose proof (get_tuple_ok g Hg) as Hok.
  split; [apply Hok|]. intros n Hn. split; [|split].
  - intros i Hi. destruct (tuples_ok_at _ i Hok Hi) as (t & Ht & Hr).
    destruct (net_at_is_Some n i t Hn Hi Hr) as [w Hw]. eauto.
  - apply get_V_is_Some; assumption.
  - intros a target <- Htu. rewrite <- Htu in Hok. unfold update_weight, last_update.
    destruct (adjust_all_spec target a Hn Hok) as (a1 & -> & _).
    destruct (adjust_all_spec (Float32.of_int 0) a Hn Hok) as (a2 & -> & _).
    split; eauto.
Qed.

Lemma get_tuple_in_table_bounds_witness :
  Forall (fun t => 0 <= t <= 65535) (get_tuple grid_full) /\
  is_Some (get_V low_net (get_tuple grid_full)).
Proof.
  destruct (get_tuple_in_table_bounds grid_full) as (Hrange & Hnet).
  - by_evaluation.
  - split; [exact Hrange|]. apply (Hnet low_net).
    by_evaluation.
Defined.

(** ** The learning step inside [take_action] *)

Lemma for_each_ext {S : Type} (f g : Z -> S -> option S) (idx : list Z) (s : S) :
  (forall i s0, i ∈ idx -> f i s0 = g i s0) -> for_each f idx s = for_each g idx s.
Proof.
  revert s. induction idx as [|i rest IH]; intros s Hfg; simpl; [reflexivity|].
  rewrite (Hfg i s) by left.
  destruct (g i s) as [s1|]; simpl; [|reflexivity].
  apply IH. intros j s0 Hj. apply Hfg. right. exact Hj.
Qed.

(** [get_V] reads the entries [net[i][tuples[i]]] and nothing else. *)
Lemma get_V_ext (n n' : list weight) (tuples : list Z) :
  (forall i t, 0 <= i < 8 -> vec_at tuples i = Some t -> net_at n' i t = net_at n i t) ->
  get_V n' tuples = get_V n tuples.
Proof.
  intros Hsame. unfold get_V. apply for_each_ext.
  intros i result Hi. apply elem_of_seqZ_0_8 in Hi.
  destruct (vec_at tuples i) as [t|] eqn:Ht; simpl; [|reflexivity].
  rewrite (Hsame i t Hi Ht). reflexivity.
Qed.

Lemma touched_functional (a : weight_agent) (i j j' : Z) :
  touched a i j -> touched a i j' -> j = j'.
Proof. intros [_ Hj] [_ Hj']. congruence. Qed.

Section Learning.

Context {B : Type} `{Board B}.

(** What a call of [take_action] does to the weights, with the target the
    search hands to [update_weight]. *)
Lemma take_action_update_spec (a : weight_agent) (before : B) :
  agent_ok a -> board_ok before ->
  exists act a' s,
    take_action a before = Some (act, a') /\
    run_search a before = Some s /\
    search_inv (net a) before opcode s /\
    act = (if decide (op_best s ≠ -1) then action_slide (op_best s) else action_null) /\
    train a' = true /\
    s_tuples a' = afterstate_tuples before (op_best s) /\
    get_V (net a') (s_tuples a') = Some (s_V a') /\
    alpha a' = alpha a /\
    net_ok (net a') /\
    length <$> net a' = length <$> net a /\
    (train a = false -> net a' = net a) /\
    (train a = true ->
     forall i j, net_at (net a') i j =
                 if decide (touched a i j)
                 then (fun old => Float32.add old (step_size a (r_V_best s))) <$> net_at (net a) i j
                 else net_at (net a) i j).
Proof.
  intros Ha Hb.
  destruct (take_action_spec a before Ha Hb)
    as (s & a1 & V & Hrun & Hinv & Hupd & Hn1 & Hal & HV & Htake).
  eexists _, _, s. split; [exact Htake|]. cbn [net alpha s_V train s_tuples].
  split; [exact Hrun|]. split; [exact Hinv|]. split; [reflexivity|].
  split; [reflexivity|]. split; [reflexivity|]. split; [exact HV|].
  split; [reflexivity|]. split; [exact Hn1|].
  destruct Ha as [Hn Ht]. destruct (train a) eqn:Htrain.
  - destruct (adjust_all_spec (r_V_best s) a Hn (Ht eq_refl))
      as (a1' & Hupd' & _ & _ & _ & _ & _ & Hshape & Hat).
    unfold update_weight in Hupd. rewrite Hupd' in Hupd. injection Hupd as ->.
    split; [exact Hshape|]. split; [discriminate|]. intros _. exact Hat.
  - subst a1. split; [reflexivity|]. split; [reflexivity|]. discriminate.
Qed.

(** The temporal-difference step of [take_action], as the code makes it.
    In state [DECIDED] ([train] set by an earlier call) the call adds
    [alpha * (target - s_V)] to [net[i][s_tuples[i]]] for each [i] in 0..7,
    where [s_tuples] and [s_V] are the tuples and the estimate carried from
    the previous call and [target] is the final [r_V_best] of the search.
    No legal direction has a candidate greater than [target], and [target]
    is either the candidate of the direction the call returns, which
    exceeds -1.0, or the initial value -1.0, with which the call returns
    the null action: the target is the greatest legal candidate only when
    that exceeds -1.0.  The first call ([train] clear) leaves the network
    as it is. *)
Lemma take_action_td_target (a : weight_agent) (before : B) :
  agent_ok a -> board_ok before ->
  exists act a' target,
    take_action a before = Some (act, a') /\
    r_V_best <$> run_search a before = Some target /\
    beaten_by (net a) before opcode target Float32.gt /\
    ((exists d, act = action_slide d /\ legal before d = true /\
                candidate (net a) before d = Some target /\
                Float32.gt target Float32.minus_one = true) \/
     (act = action_null /\ target = Float32.minus_one)) /\
    (train a = true ->
     forall i, 0 <= i < 8 ->
       exists t old,
         vec_at (s_tuples a) i = Some t /\
         net_at (net a) i t = Some old /\
         net_at (net a') i t =
         Some (Float32.add old
                 (Float32.mul (alpha a) (Float32.sub target (s_V a))))) /\
    (train a = false -> net a' = net a).
Proof.
  intros Ha Hb.
  destruct (take_action_update_spec a before Ha Hb)
    as (act & a' & s & Htake & Hrun & Hinv & Hact & _ & _ & _ & _ & _ & _ & Hidle & Hupd).
  exists act, a', (r_V_best s). split; [exact Htake|].
  split; [rewrite Hrun; reflexivity|].
  split; [exact (proj1 Hinv)|]. split; [|split; [|exact Hidle]].
  - rewrite Hact.
    destruct Hinv as [_ [[Hnone Hstart]|(Hl & Hc & Hgt & pre & post & Hv & _)]].
    + right. rewrite decide_False by (rewrite Hnone; tauto). split; [reflexivity|exact Hstart].
    + left. exists (op_best s).
      rewrite decide_True
        by (apply opcode_not_sentinel; rewrite Hv; apply elem_of_app; right; left).
      split; [reflexivity|]. split; [exact Hl|]. split; [exact Hc|exact Hgt].
  - intros Htrain i Hi. destruct Ha as [Hn Ht].
    destruct (tuples_ok_at _ i (Ht Htrain) Hi) as (t & Hti & Hr).
    destruct (net_at_is_Some (net a) i t Hn Hi Hr) as [old Hold].
    exists t, old. split; [exact Hti|]. split; [exact Hold|].
    rewrite (Hupd Htrain), decide_True by (split; assumption).
    rewrite Hold. reflexivity.
Qed.

(** C10.  A call of [take_action] changes at most the eight entries
    [net[i][s_tuples[i]]], [i] in 0..7, one in each table, at the indices
    carried from the previous call, and none on the first call; every
    other entry, the number of tables and their sizes stay as they were.
    The board is an argument that every slide copies first: the call has
    no way to return a changed board. *)
Theorem take_action_frame (a : weight_agent) (before : B) :
  agent_ok a -> board_ok before ->
  exists act a',
    take_action a before = Some (act, a') /\
    (forall i j, ~ (train a = true /\ touched a i j) ->
                 net_at (net a') i j = net_at (net a) i j) /\
    length <$> net a' = length <$> net a /\
    (forall i j, touched a i j -> 0 <= i < 8) /\
    (forall i j j', touched a i j -> touched a i j' -> j = j').
Proof.
  intros Ha Hb.
  destruct (take_action_update_spec a before Ha Hb)
    as (act & a' & s & Htake & _ & _ & _ & _ & _ & _ & _ & _ & Hshape & Hidle & Hupd).
  exists act, a'. split; [exact Htake|]. split; [|split; [exact Hshape|split]].
  - intros i j Hfree. destruct (train a) eqn:Htrain.
    + rewrite (Hupd eq_refl), decide_False; [reflexivity|]. tauto.
    + rewrite (Hidle eq_refl). reflexivity.
  - intros i j [Hi _]. exact Hi.
  - apply touched_functional.
Qed.

(** C8, as amended.  After a call of [take_action] that returns the slide
    in direction [d], the carried state is [DECIDED] and holds the feature
    tuples of the afterstate grid of [d]; the carried estimate is the
    estimate of those tuples on the network as the update of this call has
    left it.  It is the estimate the search computed for [d] when the call
    is the first one, and when the update wrote none of the entries that
    these tuples read. *)
Theorem take_action_carries_afterstate (a a' : weight_agent) (before : B) (d : Z) :
  agent_ok a -> board_ok before ->
  take_action a before = Some (action_slide d, a') ->
  train a' = true /\
  s_tuples a' = afterstate_tuples before d /\
  get_V (net a') (afterstate_tuples before d) = Some (s_V a') /\
  (train a = false ->
   get_V (net a) (afterstate_tuples before d) = Some (s_V a')) /\
  ((forall i j, touched a i j -> vec_at (afterstate_tuples before d) i <> Some j) ->
   get_V (net a) (afterstate_tuples before d) = Some (s_V a')).
Proof.
  intros Ha Hb Hcall.
  destruct (take_action_update_spec a before Ha Hb)
    as (act & a1 & s & Htake & _ & _ & Hact & Htr & Htu & HV & _ & _ & _ & Hidle & Hupd).
  rewrite Htake in Hcall. injection Hcall as Hd ->.
  rewrite Hact in Hd. destruct (decide (op_best s ≠ -1)); [|discriminate].
  injection Hd as Hd. rewrite Hd in Htu. rewrite Htu in HV.
  split; [exact Htr|]. split; [exact Htu|]. split; [exact HV|]. split.
  - intros Htrain. rewrite <- (Hidle Htrain). exact HV.
  - intros Hfresh. rewrite <- HV. symmetry. apply get_V_ext.
    intros i t Hi Ht. destruct (train a) eqn:Htrain.
    + rewrite (Hupd eq_refl), decide_False; [reflexivity|].
      intros Htouched. exact (Hfresh i t Htouched Ht).
    + rewrite (Hidle eq_refl). reflexivity.
Qed.

Lemma agent_ok_after (a a' : weight_agent) (before : B) (act : action) :
  agent_ok a -> board_ok before -> take_action a before = Some (act, a') -> agent_ok a'.
Proof.
  intros Ha Hb Hcall.
  destruct (take_action_update_spec a before Ha Hb)
    as (act1 & a1 & s & Htake & _ & Hinv & _ & _ & Htu & _ & _ & Hn & _).
  rewrite Htake in Hcall. injection Hcall as _ ->.
  split; [exact Hn|]. intros _. rewrite Htu. apply get_tuple_ok.
  apply board_ok_at; [exact Hb|]. eapply search_inv_op_best. exact Hinv.
Qed.

End Learning.

(** ** Which action [take_action] returns *)

Section Choice.

Context {B : Type} `{Board B}.

(** When the call returns a slide, its direction is legal, its candidate
    exceeds -1.0, no legal direction has a greater candidate, and no
    legal direction before it in [opcode] has a candidate that is greater
    or equal: among equal candidates the first one is kept. *)
Lemma take_action_first_max (a a' : weight_agent) (before : B) (d : Z) :
  agent_ok a -> board_ok before ->
  take_action a before = Some (action_slide d, a') ->
  legal before d = true /\
  exists c,
    candidate (net a) before d = Some c /\
    Float32.gt c Float32.minus_one = true /\
    beaten_by (net a) before opcode c Float32.gt /\
    exists pre post, opcode = pre ++ d :: post /\
                     beaten_by (net a) before pre c Float32.ge.
Proof.
  intros Ha Hb Hcall.
  destruct (take_action_update_spec a before Ha Hb)
    as (act & a1 & s & Htake & _ & Hinv & Hact & _).
  rewrite Htake in Hcall. injection Hcall as Hd _.
  rewrite Hact in Hd. destruct (decide (op_best s ≠ -1)) as [Hsel|]; [|discriminate].
  injection Hd as Hd.
  destruct Hinv as [Hmax [[Hnone _]|(Hl & Hc & Hgt & Hfirst)]]; [contradiction|].
  rewrite Hd in *. split; [exact Hl|].
  exists (r_V_best s). split; [exact Hc|]. split; [exact Hgt|].
  split; [exact Hmax|exact Hfirst].
Qed.

(** The call returns the null action exactly when no legal direction has
    a candidate that exceeds -1.0. *)
Lemma take_action_null_iff (a a' : weight_agent) (before : B) (act : action) :
  agent_ok a -> board_ok before ->
  take_action a before = Some (act, a') ->
  act = action_null <-> beaten_by (net a) before opcode Float32.minus_one Float32.gt.
Proof.
  intros Ha Hb Hcall.
  destruct (take_action_update_spec a before Ha Hb)
    as (act1 & a1 & s & Htake & _ & Hinv & Hact & _).
  rewrite Htake in Hcall. injection Hcall as <- _.
  rewrite Hact. destruct Hinv as [Hmax [[Hnone Hstart]|(Hl & Hc & Hgt & pre & post & Hv & _)]].
  - rewrite decide_False by (rewrite Hnone; tauto).
    rewrite <- Hstart. split; [intros _; exact Hmax|reflexivity].
  - assert (Hin : op_best s ∈ opcode)
      by (rewrite Hv; apply elem_of_app; right; left).
    rewrite decide_True by (apply opcode_not_sentinel; exact Hin).
    split; [discriminate|].
    intros Hlow. rewrite (Hlow (op_best s) (r_V_best s) Hin Hl Hc) in Hgt. discriminate.
Qed.

(** In particular a board without a legal direction yields the null
    action. *)
Lemma take_action_null_without_legal (a a' : weight_agent) (before : B) (act : action) :
  agent_ok a -> board_ok before ->
  take_action a before = Some (act, a') ->
  (forall op, op ∈ opcode -> legal before op = false) ->
  act = action_null.
Proof.
  intros Ha Hb Hcall Hnone.
  apply (take_action_null_iff a a' before act Ha Hb Hcall).
  intros op c Hop Hl. rewrite (Hnone op Hop) in Hl. discriminate.
Qed.

End Choice.

(** ** The terminal flush *)

Section Flush.

Context {B : Type} `{Board B}.


End Flush.

(** ** The well-formed states are those the agent reaches *)

Lemma agent_ok_fresh (rate : float) : agent_ok (fresh_agent rate).
Proof.
  split; [|discriminate]. unfold fresh_agent; cbn [net].
  apply (bool_decide_unpack _). vm_compute. exact I.
Qed.

Lemma agent_ok_last_update (a a' : weight_agent) :
  agent_ok a -> train a = true -> last_update a = Some a' -> agent_ok a'.
Proof.
  intros [Hn Ht] Htrain Hflush.
  destruct (adjust_all_spec (Float32.of_int 0) a Hn (Ht Htrain))
    as (a1 & Hrun & _ & _ & _ & Hst & Hn1 & _).
  unfold last_update in Hflush. rewrite Hrun in Hflush. injection Hflush as <-.
  split; [exact Hn1|]. intros _. rewrite Hst. exact (Ht Htrain).
Qed.

(** ** Persistence *)

Lemma read_u32_write_u32 (z : Z) (rest : list byte) :
  0 <= z < 4294967296 -> read_u32 (write_u32 z ++ rest) = Some (z, rest).
Proof.
  intros Hz. unfold read_u32, write_u32.
  rewrite decide_True by (rewrite length_app, length_le_split; lia).
  rewrite take_app_length' by (rewrite length_le_split; reflexivity).
  rewrite drop_app_length' by (rewrite length_le_split; reflexivity).
  rewrite le_combine_split. change (2 ^ (Z.of_nat 4 * 8)) with 4294967296.
  rewrite Z.mod_small by exact Hz. reflexivity.
Qed.

Lemma read_floats_write_weight (w : weight) (rest : list byte) :
  Forall Float32.is_bits w ->
  read_floats (length w) (write_weight w ++ rest) = Some (w, rest).
Proof.
  unfold write_weight. induction w as [|x w IH]; intros Hbits; [reflexivity|].
  apply Forall_cons in Hbits as [Hx Hw].
  rewrite bind_cons, <- app_assoc. cbn [length read_floats].
  rewrite (read_u32_write_u32 x _ Hx). simpl.
  rewrite (IH Hw). reflexivity.
Qed.

Lemma read_weight_write_weight (w : weight) (rest : list byte) :
  Z.of_nat (length w) = table_size -> Forall Float32.is_bits w ->
  read_weight (write_weight w ++ rest) = Some (w, rest).
Proof.
  intros Hlen Hbits. unfold read_weight. rewrite <- Hlen, Nat2Z.id.
  apply read_floats_write_weight. exact Hbits.
Qed.

(** The bytes [save_weights] writes after the table count. *)
Lemma written_tables (n : list weight) (out : list byte) :
  foldl (fun out w => out ++ write_weight w) out n = out ++ (n ≫= write_weight).
Proof.
  revert out. induction n as [|w n IH]; intros out; simpl.
  - rewrite app_nil_r. reflexivity.
  - rewrite IH, <- app_assoc. reflexivity.
Qed.

Lemma read_tables_written (n old : list weight) (rest : list byte) :
  length old = length n ->
  Forall (fun w : weight => Z.of_nat (length w) = table_size) n ->
  net_bits n ->
  read_tables old ((n ≫= write_weight) ++ rest) = Some (n, rest).
Proof.
  revert old. induction n as [|w n IH]; intros old Hlen Hsize Hbits.
  - destruct old; [reflexivity|discriminate].
  - destruct old as [|w0 old]; [discriminate|].
    apply Forall_cons in Hsize as [Hw Hsize]. apply Forall_cons in Hbits as [Hb Hbits].
    rewrite bind_cons, <- app_assoc. cbn [read_tables].
    rewrite (read_weight_write_weight w _ Hw Hb). simpl.
    rewrite (IH old) by (simpl in Hlen; congruence || assumption). reflexivity.
Qed.

(** Saving any network whose table count fits 32 bits and loading the
    file again gives the network back. *)
Lemma save_load_general (fs : filesystem) (path : string) (a target : weight_agent) :
  Z.of_nat (length (net a)) < 4294967296 ->
  Forall (fun w : weight => Z.of_nat (length w) = table_size) (net a) ->
  net_bits (net a) ->
  open_out fs path = true ->
  exists fs',
    save_weights fs path a = Returned fs' /\
    open_in fs' path = Some (write_u32 (Z.of_nat (length (net a))) ++ (net a ≫= write_weight)) /\
    load_weights fs' path target = Returned (with_net target (net a)).
Proof.
  intros Hcount Hsize Hbits Hopen. unfold save_weights. rewrite Hopen.
  rewrite Z.mod_small by lia. rewrite written_tables.
  eexists. split; [reflexivity|].
  assert (Hfile : open_in (close_out fs path
                     (write_u32 (Z.of_nat (length (net a))) ++ (net a ≫= write_weight))) path
                  = Some (write_u32 (Z.of_nat (length (net a))) ++ (net a ≫= write_weight)))
    by (unfold open_in, close_out; simpl; apply lookup_insert_eq).
  split; [exact Hfile|].
  unfold load_weights. rewrite Hfile.
  rewrite read_u32_write_u32 by lia. rewrite Nat2Z.id.
  rewrite <- (app_nil_r (net a ≫= write_weight)).
  rewrite read_tables_written; [reflexivity| |exact Hsize|exact Hbits].
  apply length_resize.
Qed.

(** C7.  For a network of 8 tables of 65536 scalars, [save_weights] to a
    path followed by [load_weights] from that path, into a fresh network
    or any other, gives back the saved tables: the same number of tables
    and the same 8 x 65536 bit patterns in the same order. *)
Theorem save_load_roundtrip (fs : filesystem) (path : string) (a fresh : weight_agent) :
  net_ok (net a) -> net_bits (net a) -> open_out fs path = true ->
  exists fs' a',
    save_weights fs path a = Returned fs' /\
    load_weights fs' path fresh = Returned a' /\
    net a' = net a.
Proof.
  intros [Hcount Hsize] Hbits Hopen.
  destruct (save_load_general fs path a fresh) as (fs' & Hsave & _ & Hload);
    [lia|exact Hsize|exact Hbits|exact Hopen|].
  exists fs', (with_net fresh (net a)). split; [exact Hsave|]. split; [exact Hload|reflexivity].
Qed.

(** C9.  [load_weights] and [save_weights] end the process, with status
    -1, exactly when the file cannot be opened; otherwise they do not.
    The engine has no failure of its own: on a well-formed state every call
    of [take_action], [update_weight] and [last_update] returns. *)
Theorem persistence_exits_iff_open_fails (fs : filesystem) (path : string) (a : weight_agent) :
  (forall status, load_weights fs path a = Exited status <->
                  open_in fs path = None /\ status = -1) /\
  (forall status, save_weights fs path a = Exited status <->
                  open_out fs path = false /\ status = -1) /\
  forall (B : Type) (HB : Board B) (before : B),
    agent_ok a -> board_ok before ->
    is_Some (take_action a before) /\
    (train a = true ->
     is_Some (last_update a) /\ forall target, is_Some (update_weight a target)).
Proof.
  split; [|split].
  - intros status. unfold load_weights.
    destruct (open_in fs path) as [data|].
    + destruct (read_u32 data) as [[size rest]|].
      * destruct (read_tables _ rest) as [[n r]|]; split; try discriminate;
          intros [Hopen _]; discriminate.
      * split; [discriminate|]. intros [Hopen _]. discriminate.
    + split; [intros Hexit; injection Hexit as <-; split; reflexivity|].
      intros [_ ->]. reflexivity.
  - intros status. unfold save_weights.
    destruct (open_out fs path).
    + split; [discriminate|]. intros [Hopen _]. discriminate.
    + split; [intros Hexit; injection Hexit as <-; split; reflexivity|].
      intros [_ ->]. reflexivity.
  - intros B HB before Ha Hb. split.
    + destruct (take_action_spec a before Ha Hb) as (s & a1 & V & _ & _ & _ & _ & _ & _ & ->).
      eauto.
    + intros Htrain. destruct Ha as [Hn Ht]. unfold last_update, update_weight. split.
      * destruct (adjust_all_spec (Float32.of_int 0) a Hn (Ht Htrain)) as (a' & -> & _). eauto.
      * intros target.
        destruct (adjust_all_spec target a Hn (Ht Htrain)) as (a' & -> & _). eauto.
Qed.

(** ** The statements on concrete states *)

(** The float model on values whose binary32 results are known:
    0.1 + 0.2 = 0.3 (0x3E99999A), the int 16777217 rounds to 2^24, the
    largest float doubled is infinity, infinity minus infinity is a NaN,
    half the smallest subnormal rounds to zero, and -0.0 is not greater
    than 0.0 but greater or equal. *)
Example float_known_values :
  Float32.add 1036831949 1045220557 = 1050253722 /\
  Float32.of_int 16777217 = 1266679808 /\
  Float32.add 2139095039 2139095039 = 2139095040 /\
  Float32.sub 2139095040 2139095040 = 2143289344 /\
  Float32.mul 1 1056964608 = 0 /\
  Float32.gt 2147483648 0 = false /\
  Float32.ge 2147483648 0 = true /\
  Float32.of_int (-1) = Float32.minus_one /\
  Float32.of_int 0 = Float32.zero.
Proof. repeat split; vm_compute; reflexivity. Qed.

Lemma take_action_frame_witness :
  exists act a',
    take_action decided_agent board_merge = Some (act, a') /\
    net_at (net a') 0 257 = net_at (net decided_agent) 0 257.
Proof.
  destruct (take_action_frame decided_agent board_merge)
    as (act & a' & Hcall & Hframe & _).
  - by_evaluation.
  - by_evaluation.
  - exists act, a'. split; [exact Hcall|]. apply Hframe.
    intros [_ [_ Hat]]. vm_compute in Hat. discriminate.
Defined.

(** The second turn of an agent with the default learning rate, on a zero
    network: the search estimates the afterstate of the merge at 0, the
    update then adds 0.0375 to five entries that this afterstate reads, and
    the estimate that is carried on is 0.1875. *)
Lemma carried_estimate_is_recomputed :
  agent_second_turn = Some decided_agent /\
  take_action decided_agent board_merge = Some (action_slide 3, merged_agent) /\
  s_tuples merged_agent = afterstate_tuples board_merge 3 /\
  get_V (net decided_agent) (afterstate_tuples board_merge 3) = Some Float32.zero /\
  candidate (net decided_agent) board_merge 3 = Some (Float32.of_int 3) /\
  s_V merged_agent = 1044381696 /\
  s_V merged_agent <> Float32.zero.
Proof.
  split; [by_evaluation|].
  split; [by_evaluation|].
  split; [vm_compute; reflexivity|].
  split; [vm_compute; reflexivity|].
  split; [vm_compute; reflexivity|].
  split; [reflexivity|]. discriminate.
Qed.

Lemma take_action_carries_afterstate_witness :
  train merged_agent = true /\
  s_tuples merged_agent = afterstate_tuples board_merge 3 /\
  get_V (net merged_agent) (afterstate_tuples board_merge 3) = Some (s_V merged_agent).
Proof.
  destruct (take_action_carries_afterstate decided_agent merged_agent board_merge 3)
    as (Htrain & Htuples & Hestimate & _).
  - by_evaluation.
  - by_evaluation.
  - by_evaluation.
  - split; [exact Htrain|]. split; [exact Htuples|exact Hestimate].
Defined.



(** With carried estimate 5.0 and learning rate 0.1 the flush lowers each
    touched weight by 0.5: here from 0 to -0.5. *)
Example last_update_lowers_by_half :
  (fun a => (net_at (net a) 0 256, net_at (net a) 1 0, net_at (net a) 5 4096,
             net_at (net a) 0 0)) <$> last_update flush_agent
  = Some (Some 3204448256, Some 3204448256, Some 3204448256, Some Float32.zero).
Proof. vm_compute. reflexivity. Qed.

Lemma save_load_roundtrip_witness :
  exists fs' a',
    save_weights empty_disk "weights.bin" (fresh_agent Float32.default_alpha) = Returned fs' /\
    load_weights fs' "weights.bin" low_agent = Returned a' /\
    net a' = net (fresh_agent Float32.default_alpha).
Proof.
  apply (save_load_roundtrip empty_disk "weights.bin"
           (fresh_agent Float32.default_alpha) low_agent).
  - by_evaluation.
  - by_evaluation.
  - reflexivity.
Defined.

Lemma persistence_exits_iff_open_fails_witness :
  load_weights empty_disk "weights.bin" low_agent = Exited (-1) /\
  is_Some (take_action low_agent board_one).
Proof.
  destruct (persistence_exits_iff_open_fails empty_disk "weights.bin" low_agent)
    as (Hload & _ & Hengine).
  split.
  - apply Hload. split; reflexivity.
  - apply (Hengine scripted scripted_board board_one); by_evaluation.
Defined.

(** ** The initial incumbent of the search *)

(** C1 at a playable board.  On [board_one] the directions 1 and 2 are
    legal and the others are not.  With the network [low_net] the
    candidate of direction 1 is -2.0 and that of direction 2 is -3.0, so
    direction 1 has the greatest candidate.  Neither exceeds the initial
    value -1.0 of [r_V_best]: [take_action] returns the null action, not
    the slide in direction 1. *)
Theorem take_action_misses_low_candidates :
  agent_ok low_agent /\ board_ok board_one /\
  legal board_one <$> opcode = [false; true; true; false] /\
  candidate low_net board_one 1 = Some minus_two /\
  candidate low_net board_one 2 = Some minus_three /\
  Float32.gt minus_two minus_three = true /\
  Float32.gt minus_two Float32.minus_one = false /\
  fst <$> take_action low_agent board_one = Some action_null.
Proof.
  split; [by_evaluation|]. split; [by_evaluation|].
  repeat split; vm_compute; reflexivity.
Qed.

(** C3 at a playable board.  A fresh agent with learning rate 1.0 plays
    [board_one], meets the full board, where the null action sends the
    target -1.0 to [update_weight], and is given [board_one] again: it
    returns the null action although sliding right and sliding down are
    legal, their candidates being -8.0 and -4.0. *)
Theorem take_action_null_on_playable_board :
  fst <$> play (fresh_agent one) [board_one; board_full; board_one]
  = Some [action_slide 1; action_null; action_null] /\
  legal board_one <$> opcode = [false; true; true; false] /\
  legal board_full <$> opcode = [false; false; false; false] /\
  (a ← agent_after_loss;
   Some (candidate (net a) board_one 1, candidate (net a) board_one 2))
  = Some (Some 3238002688, Some 3229614080).
Proof. repeat split; vm_compute; reflexivity. Qed.

(** C2 at a playable board.  A fresh agent with learning rate 1.0 plays
    [board_one] and meets the full board.  It is then in state [DECIDED]
    and carries the tuples of the full board with the estimate 0.0.  Given
    [board_one] again, sliding right and sliding down are legal, with the
    candidates -8.0 and -4.0: this call's best candidate is -4.0.  The call
    adds [alpha * (-1.0 - s_V)] to each of the eight carried entries, and
    not [alpha * (-4.0 - s_V)]: the target is the initial value -1.0 of
    [r_V_best], which neither candidate exceeds. *)
Theorem take_action_td_update_misses_best_candidate :
  exists a a',
    agent_after_loss = Some a /\
    agent_ok a /\ board_ok board_one /\
    train a = true /\
    alpha a = one /\ s_V a = Float32.zero /\ s_tuples a = get_tuple grid_full /\
    legal board_one <$> opcode = [false; true; true; false] /\
    candidate (net a) board_one 1 = Some (Float32.of_int (-8)) /\
    candidate (net a) board_one 2 = Some (Float32.of_int (-4)) /\
    Float32.gt (Float32.of_int (-4)) (Float32.of_int (-8)) = true /\
    take_action a board_one = Some (action_null, a') /\
    forall i, 0 <= i < 8 ->
      exists t old,
        vec_at (s_tuples a) i = Some t /\
        net_at (net a) i t = Some old /\
        net_at (net a') i t
        = Some (Float32.add old
                  (Float32.mul (alpha a) (Float32.sub Float32.minus_one (s_V a)))) /\
        net_at (net a') i t
        <> Some (Float32.add old
                   (Float32.mul (alpha a) (Float32.sub (Float32.of_int (-4)) (s_V a)))).
Proof.
  pose (entry := fun (a a' : weight_agent) (i : Z) =>
          t ← vec_at (s_tuples a) i;
          old ← net_at (net a) i t;
          new ← net_at (net a') i t;
          Some (bool_decide
                  (new = Float32.add old
                           (Float32.mul (alpha a)
                              (Float32.sub Float32.minus_one (s_V a)))),
                bool_decide
                  (new = Float32.add old
                           (Float32.mul (alpha a)
                              (Float32.sub (Float32.of_int (-4)) (s_V a)))))).
  assert (Hobs :
    (a ← agent_after_loss;
     r ← take_action a board_one;
     Some (bool_decide (agent_ok a), train a, alpha a, s_V a, s_tuples a,
           candidate (net a) board_one 1, candidate (net a) board_one 2, r.1,
           bool_decide (Forall (fun i => entry a r.2 i = Some (true, false)) (seqZ 0 8))))
    = Some (true, true, one, Float32.zero, get_tuple grid_full, Some (Float32.of_int (-8)), Some (Float32.of_int (-4)),
            action_null, true))
    by (vm_compute; reflexivity).
  destruct agent_after_loss as [a|]; [|discriminate Hobs].
  cbn [mbind option_bind] in Hobs.
  destruct (take_action a board_one) as [[act a']|] eqn:Hcall; [|discriminate Hobs].
  cbn [mbind option_bind fst snd] in Hobs.
  injection Hobs as Hok Htrain Hrate Hest Hcarried Hc1 Hc2 Hact Hall.
  exists a, a'. split; [reflexivity|].
  split; [apply (bool_decide_unpack _); rewrite Hok; exact I|].
  split; [by_evaluation|]. split; [exact Htrain|].
  split; [exact Hrate|]. split; [exact Hest|]. split; [exact Hcarried|].
  split; [vm_compute; reflexivity|]. split; [exact Hc1|]. split; [exact Hc2|].
  split; [vm_compute; reflexivity|]. split; [rewrite Hcall, Hact; reflexivity|].
  intros i Hi.
  apply bool_decide_eq_true in Hall. rewrite Forall_forall in Hall.
  specialize (Hall i (proj2 (elem_of_seqZ_0_8 i) Hi)). unfold entry in Hall.
  destruct (vec_at (s_tuples a) i) as [t|] eqn:Ht; [|discriminate Hall].
  cbn [mbind option_bind] in Hall.
  destruct (net_at (net a) i t) as [old|] eqn:Hold; [|discriminate Hall].
  cbn [mbind option_bind] in Hall.
  destruct (net_at (net a') i t) as [new|] eqn:Hnew; [|discriminate Hall].
  cbn [mbind option_bind] in Hall.
  injection Hall as Hyes Hno.
  apply bool_decide_eq_true in Hyes. apply bool_decide_eq_false in Hno.
  exists t, old. split; [reflexivity|]. split; [exact Hold|]. rewrite Hnew.
  split; [rewrite Hyes; reflexivity|]. intros Heq. apply Hno. injection Heq as ->. reflexivity.
Qed.

(** * The base agent: options *)

(** ** Strings *)

Lemma append_nil (t : string) : EmptyString +:+ t = t.
Proof. reflexivity. Qed.

Lemma append_cons (c : ascii) (s t : string) : String c s +:+ t = String c (s +:+ t).
Proof. reflexivity. Qed.

Lemma string_length_app (s t : string) :
  String.length (s +:+ t) = (String.length s + String.length t)%nat.
Proof.
  induction s as [|c s IH]; [reflexivity|].
  rewrite append_cons. simpl. rewrite IH. reflexivity.
Qed.

Lemma string_app_assoc (s t u : string) : (s +:+ t) +:+ u = s +:+ (t +:+ u).
Proof.
  induction s as [|c s IH]; [reflexivity|].
  rewrite !append_cons, IH. reflexivity.
Qed.

Lemma string_app_nil_r (s : string) : s +:+ EmptyString = s.
Proof.
  induction s as [|c s IH]; [reflexivity|].
  rewrite append_cons, IH. reflexivity.
Qed.

Lemma substring_all (s : string) : String.substring 0 (String.length s) s = s.
Proof. induction s as [|c s IH]; simpl; [reflexivity|]. rewrite IH. reflexivity. Qed.

Lemma substring_prefix (s t : string) :
  String.substring 0 (String.length s) (s +:+ t) = s.
Proof.
  induction s as [|c s IH]; [destruct t; reflexivity|].
  rewrite append_cons. simpl. rewrite IH. reflexivity.
Qed.

Lemma substring_skip (s t : string) (m : nat) :
  String.substring (String.length s) m (s +:+ t) = String.substring 0 m t.
Proof.
  induction s as [|c s IH]; [reflexivity|].
  rewrite append_cons. simpl. exact IH.
Qed.

Lemma find_from_absent (ch : ascii) (s : string) (i : Z) :
  no_char ch s = true -> find_from ch s i = npos.
Proof.
  revert i. induction s as [|c s IH]; intros i Hs; simpl in *; [reflexivity|].
  apply andb_true_iff in Hs as [Hc Hs].
  apply negb_true_iff in Hc. rewrite Hc. apply IH. exact Hs.
Qed.

Lemma find_from_first (ch : ascii) (k v : string) (i : Z) :
  no_char ch k = true ->
  find_from ch (k +:+ String ch v) i = i + string_size k.
Proof.
  unfold string_size. revert i. induction k as [|c k IH]; intros i Hk.
  - rewrite append_nil. simpl. rewrite Ascii.eqb_refl. lia.
  - rewrite append_cons. simpl in *.
    apply andb_true_iff in Hk as [Hc Hk].
    apply negb_true_iff in Hc. rewrite Hc, (IH (i + 1) Hk). lia.
Qed.

(** ** One pair *)

(** A pair [k=v] whose key holds no ['=']: the key is what precedes the
    first ['='], the value all that follows it. *)
Lemma set_pair_key_value (meta : gmap string string) (k v : string) :
  no_char "="%char k = true ->
  string_size (k +:+ String "="%char v) < npos ->
  set_pair meta (k +:+ String "="%char v) = Ok (<[k := v]> meta).
Proof.
  intros Hk Hfit. unfold set_pair, string_find.
  rewrite (find_from_first _ k v 0 Hk).
  unfold string_size in *. rewrite string_length_app in Hfit. simpl in Hfit.
  unfold substr, string_size. rewrite string_length_app. simpl String.length.
  rewrite decide_True by lia. cbn [result_bind].
  unfold size_t_wrap, npos in *.
  rewrite Z.mod_small by lia.
  rewrite decide_True by lia. cbn [result_bind].
  replace (Z.to_nat (Z.min (0 + Z.of_nat (String.length k))
             (Z.of_nat (String.length k + S (String.length v)) - 0)))
    with (String.length k) by lia.
  change (Z.to_nat 0) with 0%nat. rewrite substring_prefix.
  replace (Z.to_nat (0 + Z.of_nat (String.length k) + 1))
    with (String.length (k +:+ String "="%char EmptyString))
    by (rewrite string_length_app; simpl; lia).
  replace (k +:+ String "="%char v) with ((k +:+ String "="%char EmptyString) +:+ v)
    by (rewrite string_app_assoc; reflexivity).
  rewrite substring_skip.
  replace (Z.to_nat _) with (String.length v) by lia.
  rewrite substring_all. reflexivity.
Qed.

(** A pair without ['=']: [find] gives [npos], [npos + 1] wraps to 0, and
    the whole pair is both key and value. *)
Lemma set_pair_bare (meta : gmap string string) (msg : string) :
  no_char "="%char msg = true ->
  string_size msg < npos ->
  set_pair meta msg = Ok (<[msg := msg]> meta).
Proof.
  intros Hmsg Hfit. unfold set_pair, string_find.
  rewrite (find_from_absent _ msg 0 Hmsg).
  unfold substr, string_size in *. unfold npos in *.
  rewrite decide_True by lia. cbn [result_bind].
  change (size_t_wrap (18446744073709551615 + 1)) with 0.
  rewrite decide_True by lia. cbn [result_bind].
  replace (Z.to_nat (Z.min 18446744073709551615 (Z.of_nat (String.length msg) - 0)))
    with (String.length msg) by lia.
  change (Z.to_nat 0) with 0%nat. rewrite substring_all. reflexivity.
Qed.

Lemma find_from_bounds (ch : ascii) (s : string) (i : Z) :
  0 <= i ->
  find_from ch s i = npos \/ i <= find_from ch s i < i + string_size s.
Proof.
  unfold string_size. revert i. induction s as [|c s IH]; intros i Hi; simpl.
  - left. reflexivity.
  - destruct (Ascii.eqb c ch); [right; lia|].
    destruct (IH (i + 1)) as [Hn|Hb]; [lia|left; exact Hn|right; lia].
Qed.

(** No pair makes [substr] throw. *)
Lemma set_pair_ok (meta : gmap string string) (p : string) :
  string_size p < npos ->
  exists key value, set_pair meta p = Ok (<[key := value]> meta).
Proof.
  intros Hfit. unfold set_pair, string_find.
  assert (Hsz : 0 <= string_size p) by (unfold string_size; lia).
  unfold substr. rewrite decide_True by exact Hsz. cbn [result_bind].
  destruct (find_from_bounds "="%char p 0) as [Hn|Hb]; [lia| |].
  - rewrite Hn. change (size_t_wrap (npos + 1)) with 0.
    rewrite decide_True by exact Hsz. cbn [result_bind]. eauto.
  - unfold size_t_wrap. unfold npos in *. rewrite Z.mod_small by lia.
    rewrite decide_True by lia. cbn [result_bind]. eauto.
Qed.

(** ** Words and the loop of the constructor *)

Lemma words_defaults (args : string) :
  words ("name=unknown role=unknown " +:+ args)
  = "name=unknown"%string :: "role=unknown"%string :: words args.
Proof. reflexivity. Qed.

Lemma words_from_word (cur t : string) :
  no_space t = true -> cur +:+ t <> EmptyString ->
  words_from cur t = [cur +:+ t].
Proof.
  revert cur. induction t as [|c t IH]; intros cur Ht Hne; simpl in *.
  - rewrite string_app_nil_r in *. rewrite decide_False by exact Hne. reflexivity.
  - apply andb_true_iff in Ht as [Hc Ht].
    apply negb_true_iff in Hc. rewrite Hc.
    rewrite (IH (cur +:+ String c EmptyString) Ht).
    + rewrite string_app_assoc. reflexivity.
    + rewrite string_app_assoc. exact Hne.
Qed.

Lemma words_from_snoc (cur s t : string) :
  is_word t ->
  words_from cur (s +:+ String " "%char t) = words_from cur s ++ [t].
Proof.
  intros [Hne Ht]. revert cur. induction s as [|c s IH]; intros cur.
  - rewrite append_nil. simpl.
    rewrite (words_from_word EmptyString t Ht Hne).
    destruct (decide (cur = EmptyString)); reflexivity.
  - rewrite append_cons. simpl. destruct (isspace c).
    + destruct (decide (cur = EmptyString)); rewrite IH; reflexivity.
    + apply IH.
Qed.

Lemma words_from_size (cur s w : string) :
  w ∈ words_from cur s -> string_size w <= string_size cur + string_size s.
Proof.
  unfold string_size. revert cur. induction s as [|c s IH]; intros cur Hw; simpl in Hw.
  - destruct (decide (cur = EmptyString)).
    + apply elem_of_nil in Hw. contradiction.
    + apply list_elem_of_singleton in Hw as ->. simpl. lia.
  - simpl String.length. destruct (isspace c).
    + destruct (decide (cur = EmptyString)).
      * specialize (IH EmptyString Hw). simpl in IH. lia.
      * apply elem_of_cons in Hw as [->|Hw]; [lia|].
        specialize (IH EmptyString Hw). simpl in IH. lia.
    + specialize (IH _ Hw). rewrite string_length_app in IH. simpl in IH. lia.
Qed.

Lemma set_pairs_app (meta : gmap string string) (l1 l2 : list string) :
  set_pairs meta (l1 ++ l2)
  = result_bind (set_pairs meta l1) (fun meta1 => set_pairs meta1 l2).
Proof.
  revert meta. induction l1 as [|p l1 IH]; intros meta; simpl; [reflexivity|].
  destruct (set_pair meta p) as [meta1|e]; simpl; [apply IH|reflexivity].
Qed.

(** The loop never throws and never removes a key. *)
Lemma set_pairs_ok (meta : gmap string string) (l : list string) :
  (forall p, p ∈ l -> string_size p < npos) ->
  exists meta', set_pairs meta l = Ok meta' /\
                forall k, is_Some (meta !! k) -> is_Some (meta' !! k).
Proof.
  revert meta. induction l as [|p l IH]; intros meta Hfit; simpl.
  - exists meta. split; [reflexivity|]. intros k Hk. exact Hk.
  - destruct (set_pair_ok meta p) as (key & value & ->); [apply Hfit; left|]. simpl.
    destruct (IH (<[key := value]> meta)) as (meta' & -> & Hkeep).
    { intros q Hq. apply Hfit. right. exact Hq. }
    exists meta'. split; [reflexivity|]. intros k Hk. apply Hkeep.
    destruct (decide (key = k)) as [->|Hne].
    + rewrite lookup_insert_eq. eauto.
    + rewrite lookup_insert_ne by exact Hne. exact Hk.
Qed.

Lemma agent_ctor_ok (args : string) :
  string_size ("name=unknown role=unknown " +:+ args) < npos ->
  exists meta, agent_ctor args = Ok meta /\
               is_Some (meta !! "name"%string) /\ is_Some (meta !! "role"%string).
Proof.
  intros Hfit. unfold agent_ctor. rewrite words_defaults.
  change (set_pairs ∅ ("name=unknown"%string :: "role=unknown"%string :: words args))
    with (set_pairs (<["role"%string := "unknown"%string]>
                       (<["name"%string := "unknown"%string]> ∅)) (words args)).
  destruct (set_pairs_ok (<["role"%string := "unknown"%string]>
                            (<["name"%string := "unknown"%string]> ∅)) (words args))
    as (meta & Hrun & Hkeep).
  - intros p Hp. apply words_from_size in Hp.
    unfold string_size in *. rewrite string_length_app in Hfit. simpl in *. lia.
  - exists meta. split; [exact Hrun|]. split; apply Hkeep.
    + rewrite lookup_insert_ne by discriminate. rewrite lookup_insert_eq. eauto.
    + rewrite lookup_insert_eq. eauto.
Qed.

(** Appending a word to the arguments is the same as notifying it. *)
Lemma agent_ctor_snoc (args t : string) :
  is_word t ->
  agent_ctor (args +:+ String " "%char t)
  = result_bind (agent_ctor args) (fun meta => notify meta t).
Proof.
  intros Ht. unfold agent_ctor, words.
  rewrite <- string_app_assoc, (words_from_snoc _ _ t Ht), set_pairs_app.
  destruct (set_pairs ∅ _) as [meta|e]; simpl; [|reflexivity].
  unfold notify. destruct (set_pair meta t); reflexivity.
Qed.

(** ** What a user of the options sees *)

(** Constructing an agent never throws, whatever the argument string, and
    afterwards [name()] and [role()] are defined: the two defaults are
    always parsed first and no later pair removes a key. *)
Theorem agent_ctor_defines_name_and_role (args : string) :
  string_size ("name=unknown role=unknown " +:+ args) < npos ->
  exists meta n r,
    agent_ctor args = Ok meta /\ name meta = Ok n /\ role meta = Ok r.
Proof.
  intros Hfit.
  destruct (agent_ctor_ok args Hfit) as (meta & Hrun & [n Hn] & [r Hr]).
  exists meta, n, r. split; [exact Hrun|].
  unfold name, role, property. rewrite Hn, Hr. split; reflexivity.
Qed.

Lemma agent_ctor_defines_name_and_role_witness :
  exists meta n r,
    agent_ctor "init load=weights.bin" = Ok meta /\ name meta = Ok n /\ role meta = Ok r.
Proof.
  apply (agent_ctor_defines_name_and_role "init load=weights.bin").
  vm_compute. reflexivity.
Defined.

(** [notify("k=v")], for a key [k] without ['='], sets [k] to [v], so that
    [property(k)] then returns [v] (which is everything after the first
    ['='], further ['='] included), and changes no other key. *)
Theorem notify_then_property (meta : gmap string string) (k v : string) :
  no_char "="%char k = true ->
  string_size (k +:+ String "="%char v) < npos ->
  exists meta',
    notify meta (k +:+ String "="%char v) = Ok meta' /\
    property meta' k = Ok v /\
    forall k', k' <> k -> property meta' k' = property meta k'.
Proof.
  intros Hk Hfit. exists (<[k := v]> meta).
  split; [apply set_pair_key_value; assumption|].
  unfold property. split.
  - rewrite lookup_insert_eq. reflexivity.
  - intros k' Hne. rewrite lookup_insert_ne by congruence. reflexivity.
Qed.

Lemma notify_then_property_witness :
  exists meta',
    notify ∅ "alpha=0.1=x" = Ok meta' /\ property meta' "alpha" = Ok "0.1=x"%string.
Proof.
  destruct (notify_then_property ∅ "alpha" "0.1=x") as (meta' & Hn & Hp & _).
  - reflexivity.
  - vm_compute. reflexivity.
  - exists meta'. split; [exact Hn|exact Hp].
Defined.

(** A message without ['='] is stored under itself: [find] returns [npos],
    [npos + 1] wraps around to 0, and key and value are both the whole
    message.  No exception is thrown. *)
Theorem notify_without_equals (meta : gmap string string) (msg : string) :
  no_char "="%char msg = true ->
  string_size msg < npos ->
  exists meta',
    notify meta msg = Ok meta' /\
    property meta' msg = Ok msg /\
    forall k', k' <> msg -> property meta' k' = property meta k'.
Proof.
  intros Hmsg Hfit. exists (<[msg := msg]> meta).
  split; [apply set_pair_bare; assumption|].
  unfold property. split.
  - rewrite lookup_insert_eq. reflexivity.
  - intros k' Hne. rewrite lookup_insert_ne by congruence. reflexivity.
Qed.

Lemma notify_without_equals_witness :
  exists meta', notify ∅ "init" = Ok meta' /\ property meta' "init" = Ok "init"%string.
Proof.
  destruct (notify_without_equals ∅ "init") as (meta' & Hn & Hp & _).
  - reflexivity.
  - vm_compute. reflexivity.
  - exists meta'. split; [exact Hn|exact Hp].
Defined.

(** The last pair for a key wins: when the arguments end with the word
    [k=v], the constructed agent has [property(k) = v], whatever earlier
    pairs and the defaults say, and every other key is as the arguments
    before that word give it. *)
Theorem agent_ctor_last_pair_wins (args k v : string) :
  no_char "="%char k = true ->
  no_space (k +:+ String "="%char v) = true ->
  string_size ("name=unknown role=unknown " +:+ args +:+ String " "%char (k +:+ String "="%char v))
  < npos ->
  exists meta0 meta,
    agent_ctor args = Ok meta0 /\
    agent_ctor (args +:+ String " "%char (k +:+ String "="%char v)) = Ok meta /\
    property meta k = Ok v /\
    forall k', k' <> k -> property meta k' = property meta0 k'.
Proof.
  intros Hk Hword Hfit.
  assert (Hsizes : string_size ("name=unknown role=unknown " +:+ args) < npos /\
                   string_size (k +:+ String "="%char v) < npos).
  { unfold string_size in *.
    rewrite (string_length_app _ (args +:+ _)), (string_length_app args) in Hfit.
    rewrite (string_length_app _ args).
    cbn [String.length] in Hfit.
    change (String.length "name=unknown role=unknown ") with 26%nat. lia. }
  destruct Hsizes as [Hargs Hpair].
  destruct (agent_ctor_ok args Hargs) as (meta0 & Hrun & _).
  exists meta0, (<[k := v]> meta0). split; [exact Hrun|]. split.
  - rewrite agent_ctor_snoc.
    + rewrite Hrun. simpl. apply set_pair_key_value; assumption.
    + split; [|exact Hword]. destruct k; discriminate.
  - unfold property. split.
    + rewrite lookup_insert_eq. reflexivity.
    + intros k' Hne. rewrite lookup_insert_ne by congruence. reflexivity.
Qed.

Lemma agent_ctor_last_pair_wins_witness :
  exists meta,
    agent_ctor "name=slow alpha=0.1 name=fast" = Ok meta /\
    property meta "name" = Ok "fast"%string.
Proof.
  destruct (agent_ctor_last_pair_wins "name=slow alpha=0.1" "name" "fast")
    as (meta0 & meta & _ & Hrun & Hp & _).
  - reflexivity.
  - reflexivity.
  - vm_compute. reflexivity.
  - exists meta. split; [exact Hrun|exact Hp].
Defined.

(** * The learning agent beyond its well-formed states *)

Lemma for_each_fails {S : Type} (P : S -> Prop) (body : Z -> S -> option S)
      (idx : list Z) (i : Z) :
  (forall j s0 s1, P s0 -> body j s0 = Some s1 -> P s1) ->
  i ∈ idx ->
  (forall s0, P s0 -> body i s0 = None) ->
  forall s, P s -> for_each body idx s = None.
Proof.
  intros Hkeep Hi Hfail. induction idx as [|j rest IH]; intros s Hs.
  - apply elem_of_nil in Hi. contradiction.
  - simpl. apply elem_of_cons in Hi as [<-|Hi].
    + rewrite (Hfail s Hs). reflexivity.
    + destruct (body j s) as [s1|] eqn:Hj; [|reflexivity]. simpl.
      apply IH; [exact Hi|]. exact (Hkeep j s s1 Hs Hj).
Qed.

Lemma vec_at_None {A : Type} (v : list A) (i : Z) :
  Z.of_nat (length v) <= i -> vec_at v i = None.
Proof.
  intros Hi. unfold vec_at. destruct (decide (0 <= i)); [|reflexivity].
  apply lookup_ge_None. lia.
Qed.

Lemma adjust_entry_keeps (target : float) (i : Z) (a a' : weight_agent) :
  adjust_entry target i a = Some a' ->
  s_tuples a' = s_tuples a /\ length (net a') = length (net a) /\
  alpha a' = alpha a /\ s_V a' = s_V a /\ train a' = train a.
Proof.
  unfold adjust_entry, net_set. intros Hrun.
  destruct (vec_at (s_tuples a) i) as [t|]; [|discriminate]. simpl in Hrun.
  destruct (net_at (net a) i t) as [old|]; [|discriminate]. simpl in Hrun.
  destruct (vec_at (net a) i) as [w|]; [|discriminate]. simpl in Hrun.
  destruct (vec_at w t); [|discriminate]. simpl in Hrun.
  injection Hrun as <-. simpl. rewrite length_insert. repeat split.
Qed.

Lemma adjust_loop_keeps (target : float) (idx : list Z) (a a' : weight_agent) :
  for_each (adjust_entry target) idx a = Some a' ->
  s_tuples a' = s_tuples a /\ length (net a') = length (net a) /\
  alpha a' = alpha a /\ s_V a' = s_V a /\ train a' = train a.
Proof.
  revert a. induction idx as [|i rest IH]; intros a Hrun; simpl in Hrun.
  - injection Hrun as <-. repeat split.
  - destruct (adjust_entry target i a) as [a1|] eqn:Hstep; [|discriminate].
    simpl in Hrun. apply adjust_entry_keeps in Hstep as (H1 & H2 & H3 & H4 & H5).
    apply IH in Hrun as (K1 & K2 & K3 & K4 & K5).
    repeat split; congruence.
Qed.

Lemma get_V_short (n : list weight) (tuples : list Z) :
  Z.of_nat (length n) < 8 -> get_V n tuples = None.
Proof.
  intros Hlen. unfold get_V.
  apply (for_each_fails (fun _ => True) _ _ (Z.of_nat (length n))); [tauto| | |exact I].
  - apply elem_of_seqZ_0_8. lia.
  - intros result _. destruct (vec_at tuples _) as [t|]; [|reflexivity]. simpl.
    unfold net_at. rewrite vec_at_None by lia. reflexivity.
Qed.

Section Undefined.

Context {B : Type} `{Board B}.

Lemma take_action_needs_eight_tables_lemma (a : weight_agent) (before : B) :
  Z.of_nat (length (net a)) < 8 -> take_action a before = None.
Proof.
  intros Hlen. unfold take_action.
  destruct (run_search a before) as [s|]; [|reflexivity]. simpl.
  destruct (train a).
  - destruct (update_weight a (r_V_best s)) as [a1|] eqn:Hupd; [|reflexivity]. simpl.
    unfold update_weight in Hupd.
    apply adjust_loop_keeps in Hupd as (_ & Hnet & _).
    rewrite get_V_short by lia. reflexivity.
  - simpl. rewrite get_V_short by exact Hlen. reflexivity.
Qed.

(** [take_action] indexes the tables 0..7 without a check.  On a network
    with fewer than 8 tables, as the constructor leaves it when neither
    [init] nor [load] is given, the call is out of bounds whatever the
    board: it has undefined behaviour. *)
Theorem take_action_needs_eight_tables (a : weight_agent) (before : B) :
  Z.of_nat (length (net a)) < 8 ->
  (forall tuples, get_V (net a) tuples = None) /\ take_action a before = None.
Proof.
  intros Hlen. split.
  - intros tuples. apply get_V_short. exact Hlen.
  - apply take_action_needs_eight_tables_lemma. exact Hlen.
Qed.

End Undefined.

Lemma take_action_needs_eight_tables_witness :
  take_action bare_agent board_one = None.
Proof.
  destruct (take_action_needs_eight_tables bare_agent board_one) as [_ Hcall].
  - vm_compute. reflexivity.
  - exact Hcall.
Defined.

(** [last_update] and [update_weight] read [s_tuples[0..7]] without a
    check.  As long as fewer than 8 tuples are carried, in particular before
    the first call of [take_action], both are out of bounds. *)
Theorem learning_steps_need_carried_tuples (a : weight_agent) :
  Z.of_nat (length (s_tuples a)) < 8 ->
  last_update a = None /\ forall target, update_weight a target = None.
Proof.
  intros Hlen.
  assert (Hloop : forall target, for_each (adjust_entry target) (seqZ 0 8) a = None).
  { intros target.
    apply (for_each_fails (fun a0 => s_tuples a0 = s_tuples a) _ _
             (Z.of_nat (length (s_tuples a)))); [| | |reflexivity].
    - intros j a0 a1 Ha0 Hstep. apply adjust_entry_keeps in Hstep as [Hst _]. congruence.
    - apply elem_of_seqZ_0_8. lia.
    - intros a0 Ha0. unfold adjust_entry. rewrite Ha0, vec_at_None by lia. reflexivity. }
  unfold last_update, update_weight. split; [apply Hloop|exact Hloop].
Qed.

Lemma learning_steps_need_carried_tuples_witness :
  last_update (fresh_agent Float32.default_alpha) = None.
Proof.
  destruct (learning_steps_need_carried_tuples (fresh_agent Float32.default_alpha))
    as [Hflush _]; [vm_compute; reflexivity|exact Hflush].
Defined.

(** * The choice of [take_action], as the code makes it *)

Section Selection.

Context {B : Type} `{Board B}.

(** [take_action] returns a slide exactly when some legal direction has a
    candidate greater than -1.0, the initial value of [r_V_best].  The
    direction [d] it returns is then legal, its candidate exceeds -1.0, no
    legal direction has a greater candidate, and no legal direction before
    [d] in the order 0, 1, 2, 3 has a candidate greater than or equal to
    that of [d]: the first of the greatest candidates wins. *)
Theorem take_action_selects_first_maximum (a : weight_agent) (before : B) :
  agent_ok a -> board_ok before ->
  exists act a',
    take_action a before = Some (act, a') /\
    ((exists op c, op ∈ opcode /\ legal before op = true /\
                   candidate (net a) before op = Some c /\
                   Float32.gt c Float32.minus_one = true)
     <-> exists d, act = action_slide d) /\
    forall d, act = action_slide d ->
      legal before d = true /\
      exists c,
        candidate (net a) before d = Some c /\
        Float32.gt c Float32.minus_one = true /\
        beaten_by (net a) before opcode c Float32.gt /\
        exists pre post, opcode = pre ++ d :: post /\
                         beaten_by (net a) before pre c Float32.ge.
Proof.
  intros Ha Hb.
  destruct (take_action_update_spec a before Ha Hb)
    as (act & a' & s & Htake & _ & Hinv & Hact & _).
  exists act, a'. split; [exact Htake|]. rewrite Hact.
  destruct Hinv as [Hmax [[Hnone Hstart]|(Hl & Hc & Hgt & pre & post & Hv & Hpre)]].
  - rewrite decide_False by (rewrite Hnone; tauto). split; [split|].
    + intros (op & c & Hop & Hlegal & Hcand & Hbig).
      rewrite Hstart in Hmax. rewrite (Hmax op c Hop Hlegal Hcand) in Hbig. discriminate.
    + intros [d Hd]. discriminate.
    + intros d Hd. discriminate.
  - assert (Hin : op_best s ∈ opcode) by (rewrite Hv; apply elem_of_app; right; left).
    rewrite decide_True by (apply opcode_not_sentinel; exact Hin). split; [split|].
    + intros _. eauto.
    + intros _. exists (op_best s), (r_V_best s). tauto.
    + intros d Hd. injection Hd as <-. split; [exact Hl|].
      exists (r_V_best s). split; [exact Hc|]. split; [exact Hgt|].
      split; [exact Hmax|]. exists pre, post. split; [exact Hv|exact Hpre].
Qed.

(** On a board without a legal direction [take_action] returns the null
    action, and in state [DECIDED] it still updates the carried entries,
    with the target -1.0. *)
Theorem take_action_on_terminal_board (a : weight_agent) (before : B) :
  agent_ok a -> board_ok before ->
  (forall op, op ∈ opcode -> legal before op = false) ->
  exists a',
    take_action a before = Some (action_null, a') /\
    (train a = true ->
     forall i j, net_at (net a') i j =
                 if decide (touched a i j)
                 then (fun old => Float32.add old
                         (Float32.mul (alpha a)
                            (Float32.sub Float32.minus_one (s_V a)))) <$> net_at (net a) i j
                 else net_at (net a) i j).
Proof.
  intros Ha Hb Hnone.
  destruct (take_action_update_spec a before Ha Hb)
    as (act & a' & s & Htake & _ & Hinv & Hact & _ & _ & _ & _ & _ & _ & _ & Hupd).
  destruct Hinv as [_ [[Hsel Hstart]|(Hl & _ & _ & pre & post & Hv & _)]].
  - exists a'. rewrite Hact, decide_False in Htake by (rewrite Hsel; tauto).
    split; [exact Htake|]. intros Htrain i j.
    rewrite (Hupd Htrain). unfold step_size. rewrite Hstart. reflexivity.
  - rewrite Hnone in Hl; [discriminate|].
    rewrite Hv. apply elem_of_app. right. left.
Qed.

(** [take_action] keeps the agent well formed, leaves it in state
    [DECIDED] and never changes the learning rate; hence a game loop of any
    length over well-formed boards never reaches undefined behaviour. *)
Theorem play_stays_well_formed (boards : list B) :
  forall a : weight_agent,
  agent_ok a -> Forall board_ok boards ->
  exists acts a',
    play a boards = Some (acts, a') /\
    length acts = length boards /\
    agent_ok a' /\ alpha a' = alpha a /\
    (boards <> [] -> train a' = true).
Proof.
  induction boards as [|b rest IH]; intros a Ha Hboards; simpl.
  - exists [], a. split; [reflexivity|]. split; [reflexivity|].
    split; [exact Ha|]. split; [reflexivity|congruence].
  - apply Forall_cons in Hboards as [Hb Hrest].
    destruct (take_action_update_spec a b Ha Hb)
      as (act & a1 & s & Htake & _ & _ & _ & Htrain & _ & _ & Hal & _).
    pose proof (agent_ok_after a a1 b act Ha Hb Htake) as Ha1.
    rewrite Htake. simpl.
    destruct (IH a1 Ha1 Hrest) as (acts & a' & Hplay & Hlen & Ha' & Hal' & Hdecided).
    rewrite Hplay. simpl.
    exists (act :: acts), a'. split; [reflexivity|]. split; [simpl; congruence|].
    split; [exact Ha'|]. split; [congruence|]. intros _.
    destruct rest as [|b' rest'].
    + simpl in Hplay. injection Hplay as _ <-. exact Htrain.
    + apply Hdecided. discriminate.
Qed.

End Selection.

Lemma take_action_selects_first_maximum_witness :
  exists act a',
    take_action decided_agent board_merge = Some (act, a') /\
    exists d, act = action_slide d.
Proof.
  destruct (take_action_selects_first_maximum decided_agent board_merge)
    as (act & a' & Hcall & Hslide & _).
  - by_evaluation.
  - by_evaluation.
  - exists act, a'. split; [exact Hcall|]. apply Hslide.
    exists 3, (Float32.of_int 3). split; [by_evaluation|].
    split; [reflexivity|]. split; vm_compute; reflexivity.
Defined.

Lemma take_action_on_terminal_board_witness :
  exists a', take_action decided_agent board_full = Some (action_null, a').
Proof.
  destruct (take_action_on_terminal_board decided_agent board_full) as (a' & Hcall & _).
  - by_evaluation.
  - by_evaluation.
  - intros op Hop. unfold opcode in Hop.
    rewrite !elem_of_cons, elem_of_nil in Hop.
    destruct Hop as [->|[->|[->|[->|[]]]]]; reflexivity.
  - exists a'. exact Hcall.
Defined.

Lemma play_stays_well_formed_witness :
  exists acts a',
    play (fresh_agent Float32.default_alpha) [board_one; board_full; board_merge]
    = Some (acts, a') /\ length acts = 3%nat /\ agent_ok a'.
Proof.
  destruct (play_stays_well_formed [board_one; board_full; board_merge]
              (fresh_agent Float32.default_alpha))
    as (acts & a' & Hplay & Hlen & Hok & _).
  - by_evaluation.
  - by_evaluation.
  - exists acts, a'. split; [exact Hplay|]. split; [exact Hlen|exact Hok].
Defined.

(** * The feature extractor and the fresh network *)

Lemma row_index_inj (r r' : row) :
  cell_ok (a0 r) -> cell_ok (a1 r) -> cell_ok (a2 r) -> cell_ok (a3 r) ->
  cell_ok (a0 r') -> cell_ok (a1 r') -> cell_ok (a2 r') -> cell_ok (a3 r') ->
  row_index r = row_index r' -> r = r'.
Proof.
  destruct r as [x0 x1 x2 x3], r' as [y0 y1 y2 y3].
  unfold row_index, index_of, cell_ok. simpl. intros.
  assert (x0 = y0) by lia. assert (x1 = y1) by lia.
  assert (x2 = y2) by lia. assert (x3 = y3) by lia.
  congruence.
Qed.

(** The feature tuples lose nothing: two grids of 4-bit cells with the
    same 8 indices are the same grid (the four row indices already
    determine it). *)
Theorem get_tuple_injective (g g' : grid) :
  grid_ok g -> grid_ok g' -> get_tuple g = get_tuple g' -> g = g'.
Proof.
  intros Hg Hg' Heq.
  rewrite (get_tuple_exact g Hg), (get_tuple_exact g' Hg') in Heq.
  injection Heq as H0 H1 H2 H3 _ _ _ _.
  assert (Hin : forall (h : grid) x, x = a0 h \/ x = a1 h \/ x = a2 h \/ x = a3 h ->
                                     x ∈ [a0 h; a1 h; a2 h; a3 h])
    by (intros h x Hx; rewrite !elem_of_cons; tauto).
  destruct g as [r0 r1 r2 r3], g' as [s0 s1 s2 s3]. simpl in *.
  f_equal.
  - destruct (grid_ok_cells _ Hg r0) as (? & ? & ? & ?); [apply Hin; simpl; tauto|].
    destruct (grid_ok_cells _ Hg' s0) as (? & ? & ? & ?); [apply Hin; simpl; tauto|].
    apply row_index_inj; assumption.
  - destruct (grid_ok_cells _ Hg r1) as (? & ? & ? & ?); [apply Hin; simpl; tauto|].
    destruct (grid_ok_cells _ Hg' s1) as (? & ? & ? & ?); [apply Hin; simpl; tauto|].
    apply row_index_inj; assumption.
  - destruct (grid_ok_cells _ Hg r2) as (? & ? & ? & ?); [apply Hin; simpl; tauto|].
    destruct (grid_ok_cells _ Hg' s2) as (? & ? & ? & ?); [apply Hin; simpl; tauto|].
    apply row_index_inj; assumption.
  - destruct (grid_ok_cells _ Hg r3) as (? & ? & ? & ?); [apply Hin; simpl; tauto|].
    destruct (grid_ok_cells _ Hg' s3) as (? & ? & ? & ?); [apply Hin; simpl; tauto|].
    apply row_index_inj; assumption.
Qed.

Lemma get_tuple_injective_witness :
  get_tuple grid_one = [4096; 0; 0; 0; 4096; 0; 0; 0] /\ grid_one = grid_one.
Proof.
  split; [reflexivity|].
  apply (get_tuple_injective grid_one grid_one); [by_evaluation|by_evaluation|reflexivity].
Defined.

(** ** The estimate as a sum of entries *)

Lemma for_each_sum (n : list weight) (tuples : list Z) (idx : list Z) (r : float) :
  for_each
    (fun i result => t ← vec_at tuples i; w ← net_at n i t; Some (Float32.add result w))
    idx r
  = foldl Float32.add r <$> read_entries n tuples idx.
Proof.
  revert r. induction idx as [|i rest IH]; intros r; simpl; [reflexivity|].
  destruct (vec_at tuples i) as [t|]; simpl; [|reflexivity].
  destruct (net_at n i t) as [w|]; simpl; [|reflexivity].
  rewrite IH. destruct (read_entries n tuples rest); reflexivity.
Qed.

(** [get_V] adds the eight entries to 0 from table 0 to table 7. *)
Lemma get_V_sum (n : list weight) (tuples : list Z) :
  get_V n tuples = sum_floats <$> read_entries n tuples (seqZ 0 8).
Proof. unfold get_V, sum_floats. apply for_each_sum. Qed.

Lemma read_entries_ext (n n' : list weight) (tuples : list Z) (idx : list Z)
      (f : float -> float) :
  (forall i t, i ∈ idx -> vec_at tuples i = Some t ->
               net_at n' i t = fmap (M := option) f (net_at n i t)) ->
  read_entries n' tuples idx
  = fmap (M := option) (fmap (M := list) f) (read_entries n tuples idx).
Proof.
  induction idx as [|i rest IH]; intros Hf; simpl; [reflexivity|].
  destruct (vec_at tuples i) as [t|] eqn:Ht; simpl; [|reflexivity].
  rewrite (Hf i t) by (left || exact Ht).
  destruct (net_at n i t) as [w|]; simpl; [|reflexivity].
  rewrite IH by (intros j tj Hj; apply Hf; right; exact Hj).
  destruct (read_entries n tuples rest); reflexivity.
Qed.

Lemma init_weights_appends (n : list weight) :
  init_weights n = n ++ replicate 8 zero_table.
Proof.
  unfold init_weights, zero_table. rewrite seqZ_0_8.
  generalize (replicate (Z.to_nat table_size) Float32.zero). intros zt.
  unfold emplace_back. cbn [foldl]. rewrite <- !app_assoc. reflexivity.
Qed.

Lemma init_weights_fresh : init_weights [] = replicate 8 zero_table.
Proof. apply init_weights_appends. Qed.

Lemma net_at_fresh (i t : Z) :
  0 <= i < 8 -> 0 <= t <= 65535 -> net_at (init_weights []) i t = Some Float32.zero.
Proof.
  intros Hi Ht. rewrite init_weights_fresh. unfold net_at, vec_at.
  rewrite decide_True by lia.
  rewrite (proj2 (lookup_replicate 8 zero_table zero_table (Z.to_nat i)))
    by (split; [reflexivity|lia]).
  simpl. rewrite decide_True by lia.
  unfold zero_table. apply lookup_replicate. split; [reflexivity|].
  unfold table_size. lia.
Qed.

(** [init_weights] appends eight tables of 65536 zeros to the network.
    Called on the empty network of a new agent it gives a well-formed
    network whose estimate is 0.0 for every grid of 4-bit cells. *)
Theorem init_weights_estimates_zero (n : list weight) (g : grid) :
  init_weights n = n ++ replicate 8 zero_table /\
  net_ok (init_weights []) /\
  (grid_ok g -> get_V (init_weights []) (get_tuple g) = Some Float32.zero).
Proof.
  split; [apply init_weights_appends|]. split; [by_evaluation|].
  intros Hg. pose proof (get_tuple_ok g Hg) as Hok.
  rewrite get_V_sum.
  assert (Hall : forall idx, (forall i, i ∈ idx -> 0 <= i < 8) ->
            read_entries (init_weights []) (get_tuple g) idx
            = Some (replicate (length idx) Float32.zero)).
  { induction idx as [|i rest IH]; intros Hidx; simpl; [reflexivity|].
    destruct (tuples_ok_at _ i Hok (Hidx i ltac:(left))) as (t & -> & Ht). simpl.
    rewrite (net_at_fresh i t (Hidx i ltac:(left))) by lia. simpl.
    rewrite IH by (intros j Hj; apply Hidx; right; exact Hj). reflexivity. }
  rewrite Hall by (intros i Hi; apply elem_of_seqZ_0_8; exact Hi).
  reflexivity.
Qed.

Lemma init_weights_estimates_zero_witness :
  get_V (init_weights []) (get_tuple grid_full) = Some Float32.zero.
Proof.
  destruct (init_weights_estimates_zero [] grid_full) as (_ & _ & Hzero).
  apply Hzero. by_evaluation.
Defined.

(** After [update_weight] the estimate of the carried tuples is the sum,
    in table order, of the eight old entries each increased by
    [alpha * (target - s_V)]: every entry is written once, since the eight
    entries lie in eight different tables. *)
Theorem update_weight_then_get_V (a : weight_agent) (target : float) :
  net_ok (net a) -> tuples_ok (s_tuples a) ->
  exists ws a',
    read_entries (net a) (s_tuples a) (seqZ 0 8) = Some ws /\
    length ws = 8%nat /\
    get_V (net a) (s_tuples a) = Some (sum_floats ws) /\
    update_weight a target = Some a' /\
    get_V (net a') (s_tuples a)
    = Some (sum_floats ((fun w => Float32.add w (step_size a target)) <$> ws)).
Proof.
  intros Hn Ht.
  destruct (get_V_is_Some (net a) (s_tuples a) Hn Ht) as [v Hv].
  rewrite get_V_sum in Hv.
  destruct (read_entries (net a) (s_tuples a) (seqZ 0 8)) as [ws|] eqn:Hws; [|discriminate].
  destruct (adjust_all_spec target a Hn Ht) as (a' & Hrun & _ & _ & _ & _ & _ & _ & Hat).
  exists ws, a'. split; [reflexivity|]. split; [|split; [|split; [exact Hrun|]]].
  - assert (Hlen : forall idx ws0, read_entries (net a) (s_tuples a) idx = Some ws0 ->
                                   length ws0 = length idx).
    { induction idx as [|i rest IH]; intros ws0 Hr; simpl in Hr.
      - injection Hr as <-. reflexivity.
      - destruct (vec_at (s_tuples a) i) as [t|]; [|discriminate]. simpl in Hr.
        destruct (net_at (net a) i t); [|discriminate]. simpl in Hr.
        destruct (read_entries (net a) (s_tuples a) rest) as [ws1|]; [|discriminate].
        injection Hr as <-. simpl. rewrite (IH ws1 eq_refl). reflexivity. }
    rewrite (Hlen _ _ Hws). reflexivity.
  - rewrite get_V_sum, Hws. reflexivity.
  - rewrite get_V_sum.
    rewrite (read_entries_ext (net a) (net a') (s_tuples a) (seqZ 0 8)
               (fun w => Float32.add w (step_size a target))).
    + rewrite Hws. reflexivity.
    + intros i t Hi Hti. apply elem_of_seqZ_0_8 in Hi.
      rewrite Hat, decide_True by (split; assumption). reflexivity.
Qed.

Lemma update_weight_then_get_V_witness :
  exists ws a',
    read_entries (net flush_agent) (s_tuples flush_agent) (seqZ 0 8) = Some ws /\
    update_weight flush_agent Float32.minus_one = Some a' /\
    get_V (net a') (s_tuples flush_agent)
    = Some (sum_floats ((fun w => Float32.add w (step_size flush_agent Float32.minus_one)) <$> ws)).
Proof.
  destruct (update_weight_then_get_V flush_agent Float32.minus_one)
    as (ws & a' & Hws & _ & _ & Hupd & Hsum).
  - by_evaluation.
  - by_evaluation.
  - exists ws, a'. split; [exact Hws|]. split; [exact Hupd|exact Hsum].
Defined.

(** * Construction and destruction of the learning agent *)

Lemma persistence_exit_cases (fs : filesystem) (path : string) (a : weight_agent) :
  (is_Some (open_in fs path) -> forall status, load_weights fs path a <> Exited status) /\
  (open_in fs path = None -> load_weights fs path a = Exited (-1)).
Proof.
  unfold load_weights. destruct (open_in fs path) as [data|].
  - split; [|discriminate]. intros _ status.
    destruct (read_u32 data) as [[size rest]|]; [|discriminate].
    destruct (read_tables _ rest) as [[n r]|]; discriminate.
  - split; [|reflexivity]. intros [x Hx]. discriminate.
Qed.

Section ConstructionFacts.

Variable stod_as_float : string -> result float.

(** With [init] among the options and no [load], the constructor builds a
    well-formed agent in state [IDLE] on eight zero tables, on which every
    call of [take_action] on a well-formed board is defined. *)
Theorem ctor_with_init_is_playable (fs : filesystem) (s_V0 : float) (args : string)
        (meta : gmap string string) :
  agent_ctor args = Ok meta ->
  is_Some (meta !! "init"%string) ->
  meta !! "load"%string = None ->
  meta !! "alpha"%string = None ->
  exists o,
    weight_agent_ctor stod_as_float fs s_V0 args = Completed o /\
    wa_meta o = meta /\
    net (wa_fields o) = replicate 8 zero_table /\
    alpha (wa_fields o) = Float32.default_alpha /\
    train (wa_fields o) = false /\
    agent_ok (wa_fields o) /\
    forall (B : Type) (HB : Board B) (before : B),
      board_ok before -> is_Some (take_action (wa_fields o) before).
Proof.
  intros Hmeta Hinit Hload Halpha. unfold weight_agent_ctor.
  rewrite Hmeta, Hload, Halpha. rewrite decide_True by exact Hinit.
  eexists. split; [reflexivity|]. cbn [wa_meta wa_fields].
  unfold members_start, with_net. cbn [net alpha s_V train s_tuples].
  rewrite init_weights_fresh.
  assert (Hok : agent_ok {| net := replicate 8 zero_table; alpha := Float32.default_alpha;
                            s_V := s_V0; train := false; s_tuples := [] |}).
  { split; [|discriminate]. cbn [net]. rewrite <- init_weights_fresh. by_evaluation. }
  repeat (split; [reflexivity|]). split; [exact Hok|].
  intros B HB before Hb.
  destruct (take_action_spec _ before Hok Hb) as (s & a1 & V & _ & _ & _ & _ & _ & _ & ->).
  eauto.
Qed.

(** Without [init] and without [load] the constructor leaves the network
    empty, and every call of [take_action] on the agent it builds is out
    of bounds. *)
Theorem ctor_without_tables_is_unplayable (fs : filesystem) (s_V0 : float) (args : string)
        (meta : gmap string string) :
  agent_ctor args = Ok meta ->
  meta !! "init"%string = None ->
  meta !! "load"%string = None ->
  (meta !! "alpha"%string = None ->
   exists o, weight_agent_ctor stod_as_float fs s_V0 args = Completed o) /\
  forall o, weight_agent_ctor stod_as_float fs s_V0 args = Completed o ->
    net (wa_fields o) = [] /\
    forall (B : Type) (HB : Board B) (before : B), take_action (wa_fields o) before = None.
Proof.
  intros Hmeta Hinit Hload. unfold weight_agent_ctor.
  rewrite Hmeta, Hload.
  rewrite decide_False by (rewrite Hinit; intros [x Hx]; discriminate).
  split.
  - intros Halpha. rewrite Halpha. eauto.
  - intros o Ho.
    assert (Hnet : net (wa_fields o) = []).
    { destruct (meta !! "alpha"%string) as [v|].
      - destruct (stod_as_float v); [|discriminate]. injection Ho as <-. reflexivity.
      - injection Ho as <-. reflexivity. }
    split; [exact Hnet|]. intros B HB before.
    apply take_action_needs_eight_tables_lemma. rewrite Hnet. simpl. lia.
Qed.

(** The ways construction fails.  The process is ended, with status -1,
    exactly when [load] names a file that cannot be opened, whatever the
    other options are: the file is opened before [alpha] is converted, so
    then even an [alpha] that is not a number does not throw.  An
    exception leaves the constructor only from the conversion of [alpha],
    and only if no [load] has ended the process before. *)
Theorem ctor_failures (fs : filesystem) (s_V0 : float) (args : string)
        (meta : gmap string string) :
  agent_ctor args = Ok meta ->
  (forall status,
     weight_agent_ctor stod_as_float fs s_V0 args = Exits status <->
     exists path, meta !! "load"%string = Some path /\ open_in fs path = None /\ status = -1) /\
  (forall e,
     weight_agent_ctor stod_as_float fs s_V0 args = Throws e ->
     (exists v, meta !! "alpha"%string = Some v /\ stod_as_float v = Throw e) /\
     forall path, meta !! "load"%string = Some path -> is_Some (open_in fs path)).
Proof.
  intros Hmeta. unfold weight_agent_ctor. rewrite Hmeta.
  set (start := if decide (is_Some (meta !! "init"%string))
                then with_net (members_start s_V0) (init_weights (net (members_start s_V0)))
                else members_start s_V0).
  destruct (meta !! "load"%string) as [path|] eqn:Hload.
  - pose proof (persistence_exit_cases fs path start) as Hcases.
    destruct (open_in fs path) as [data|] eqn:Hopen.
    + destruct Hcases as [Hnoexit _]. specialize (Hnoexit (mk_is_Some _ _ eq_refl)).
      destruct (load_weights fs path start) as [a|status0|].
      * split.
        -- intros status. split.
           ++ destruct (meta !! "alpha"%string) as [v|]; [destruct (stod_as_float v)|];
                discriminate.
           ++ intros (p & Hp & Hnone & _). injection Hp as <-. congruence.
        -- intros e He. split.
           ++ destruct (meta !! "alpha"%string) as [v|]; [|discriminate].
              destruct (stod_as_float v) as [x|e'] eqn:Hv; [discriminate|].
              injection He as <-. eauto.
           ++ intros p Hp. injection Hp as <-. rewrite Hopen. eauto.
      * exfalso. apply (Hnoexit status0). reflexivity.
      * split.
        -- intros status. split; [discriminate|].
           intros (p & Hp & Hnone & _). injection Hp as <-. congruence.
        -- intros e He. discriminate.
    + destruct Hcases as [_ Hexit]. rewrite (Hexit eq_refl). split.
      * intros status. split.
        -- intros Hst. injection Hst as <-. exists path. tauto.
        -- intros (p & _ & _ & ->). reflexivity.
      * intros e He. discriminate.
  - split.
    + intros status. split.
      * destruct (meta !! "alpha"%string) as [v|]; [destruct (stod_as_float v)|];
          discriminate.
      * intros (p & Hp & _). discriminate.
    + intros e He. split; [|intros p Hp; discriminate].
      destruct (meta !! "alpha"%string) as [v|]; [|discriminate].
      destruct (stod_as_float v) as [x|e'] eqn:Hv; [discriminate|].
      injection He as <-. eauto.
Qed.

(** What the destructor of one agent saves, the constructor of the next
    one loads.  Let the first agent hold [save=path] and a well-formed
    network, let [path] be writable, and let the arguments of the new
    agent hold [load=path], with or without [init] and with or without
    [alpha].  Then the destructor returns, and the constructor never ends
    the process: it throws only when the conversion of [alpha] throws, and
    otherwise it builds an agent in state [IDLE] on the very same tables,
    whose learning rate is the converted [alpha], or 0.0125 when none is
    given. *)
Theorem dtor_then_ctor_restores (fs : filesystem) (o : weight_agent_object)
        (s_V0 : float) (args path : string) (meta : gmap string string) :
  wa_meta o !! "save"%string = Some path ->
  net_ok (net (wa_fields o)) -> net_bits (net (wa_fields o)) ->
  open_out fs path = true ->
  agent_ctor args = Ok meta ->
  meta !! "load"%string = Some path ->
  exists fs',
    weight_agent_dtor fs o = Returned fs' /\
    match weight_agent_ctor stod_as_float fs' s_V0 args with
    | Completed o' =>
        wa_meta o' = meta /\
        net (wa_fields o') = net (wa_fields o) /\
        train (wa_fields o') = false /\
        agent_ok (wa_fields o') /\
        match meta !! "alpha"%string with
        | Some v => stod_as_float v = Ok (alpha (wa_fields o'))
        | None => alpha (wa_fields o') = Float32.default_alpha
        end
    | Throws e => exists v, meta !! "alpha"%string = Some v /\ stod_as_float v = Throw e
    | Exits _ | Indeterminate => False
    end /\
    ((forall v, meta !! "alpha"%string = Some v -> exists x, stod_as_float v = Ok x) ->
     exists o', weight_agent_ctor stod_as_float fs' s_V0 args = Completed o').
Proof.
  intros Hsave [Hcount Hsize] Hbits Hopen Hmeta Hload.
  unfold weight_agent_dtor, weight_agent_ctor. rewrite Hsave, Hmeta, Hload.
  set (start := if decide (is_Some (meta !! "init"%string))
                then with_net (members_start s_V0) (init_weights (net (members_start s_V0)))
                else members_start s_V0).
  destruct (save_load_general fs path (wa_fields o) start)
    as (fs' & Hsaved & _ & Hloaded); [lia|exact Hsize|exact Hbits|exact Hopen|].
  exists fs'. rewrite Hsaved. split; [reflexivity|]. rewrite Hloaded.
  assert (Htrain : train start = false) by (unfold start; destruct (decide _); reflexivity).
  assert (Halpha : alpha start = Float32.default_alpha)
    by (unfold start; destruct (decide _); reflexivity).
  assert (Hok : forall x, agent_ok (with_alpha (with_net start (net (wa_fields o))) x)).
  { intros x. split; [split; assumption|]. cbn [train with_alpha with_net].
    rewrite Htrain. discriminate. }
  destruct (meta !! "alpha"%string) as [v|].
  - destruct (stod_as_float v) as [x|e] eqn:Hv.
    + split; [|intros _; eauto]. cbn [wa_meta wa_fields].
      split; [reflexivity|]. split; [reflexivity|]. split; [exact Htrain|].
      split; [apply Hok|reflexivity].
    + split; [eauto|]. intros Hnum. destruct (Hnum v eq_refl) as [x Hx]. congruence.
  - split; [|intros _; eauto]. cbn [wa_meta wa_fields].
    split; [reflexivity|]. split; [reflexivity|]. split; [exact Htrain|].
    split; [|exact Halpha].
    split; [split; assumption|]. cbn [train with_net]. rewrite Htrain. discriminate.
Qed.

End ConstructionFacts.

Lemma ctor_with_init_is_playable_witness :
  exists o,
    weight_agent_ctor stod_one empty_disk Float32.zero "init name=td" = Completed o /\
    agent_ok (wa_fields o).
Proof.
  destruct (ctor_with_init_is_playable stod_one empty_disk Float32.zero "init name=td"
              (meta_of "init name=td"))
    as (o & Hctor & _ & _ & _ & _ & Hok & _).
  - vm_compute. reflexivity.
  - vm_compute. eauto.
  - vm_compute. reflexivity.
  - vm_compute. reflexivity.
  - exists o. split; [exact Hctor|exact Hok].
Defined.

Lemma ctor_without_tables_is_unplayable_witness :
  exists o,
    weight_agent_ctor stod_one empty_disk Float32.zero "name=td" = Completed o /\
    take_action (wa_fields o) board_one = None.
Proof.
  destruct (ctor_without_tables_is_unplayable stod_one empty_disk Float32.zero "name=td"
              (meta_of "name=td"))
    as (Hbuilt & Hbare).
  - vm_compute. reflexivity.
  - vm_compute. reflexivity.
  - vm_compute. reflexivity.
  - destruct Hbuilt as [o Ho]; [vm_compute; reflexivity|].
    exists o. split; [exact Ho|]. apply (Hbare o Ho).
Defined.

Lemma ctor_failures_witness :
  weight_agent_ctor stod_one empty_disk Float32.zero "init load=weights.bin alpha=fast"
  = Exits (-1).
Proof.
  destruct (ctor_failures stod_one empty_disk Float32.zero "init load=weights.bin alpha=fast"
              (meta_of "init load=weights.bin alpha=fast")) as [Hexit _].
  - vm_compute. reflexivity.
  - apply Hexit. exists "weights.bin"%string.
    split; [vm_compute; reflexivity|]. split; reflexivity.
Defined.

Lemma dtor_then_ctor_restores_witness :
  exists fs' o',
    weight_agent_dtor empty_disk
      {| wa_meta := {[ "save"%string := "weights.bin"%string ]}; wa_fields := low_agent |}
    = Returned fs' /\
    weight_agent_ctor stod_one fs' Float32.zero "init load=weights.bin alpha=1" = Completed o' /\
    net (wa_fields o') = low_net /\
    alpha (wa_fields o') = one.
Proof.
  destruct (dtor_then_ctor_restores stod_one empty_disk
              {| wa_meta := {[ "save"%string := "weights.bin"%string ]}; wa_fields := low_agent |}
              Float32.zero "init load=weights.bin alpha=1" "weights.bin"
              (meta_of "init load=weights.bin alpha=1"))
    as (fs' & Hdtor & Hctor & Hbuilt).
  - reflexivity.
  - by_evaluation.
  - by_evaluation.
  - reflexivity.
  - vm_compute. reflexivity.
  - vm_compute. reflexivity.
  - destruct Hbuilt as [o' Ho'].
    + intros v Hv. vm_compute in Hv. injection Hv as <-. exists one. reflexivity.
    + rewrite Ho' in Hctor. destruct Hctor as (_ & Hnet & _ & _ & Halpha).
      exists fs', o'. split; [exact Hdtor|]. split; [exact Ho'|]. split; [exact Hnet|].
      assert (Hgiven : meta_of "init load=weights.bin alpha=1" !! "alpha"%string
                       = Some "1"%string) by (vm_compute; reflexivity).
      rewrite Hgiven in Halpha.
      assert (Hone : stod_one "1" = Ok one) by reflexivity.
      rewrite Hone in Halpha. injection Halpha as <-. reflexivity.
Defined.

(** * The other sliders *)

Section MySliderFacts.

Context {B : Type} `{Board B}.

(** [my_slider] is greedy on the reward that [slide] returns: it returns
    the slide in the first direction of greatest reward when that reward
    exceeds -1, and the null action exactly when no reward does, that is,
    when every slide returns the sentinel.  It writes one line per
    direction. *)
Theorem my_slider_is_greedy (before : B) :
  let r op := (slide before op).1 in
  length (my_slider_take_action before).2 = 4%nat /\
  match (my_slider_take_action before).1 with
  | action_slide d =>
      d ∈ opcode /\ -1 < r d /\
      Forall (fun op => r op <= r d) opcode /\
      Forall (fun op => op < d -> r op < r d) opcode
  | action_null => Forall (fun op => r op <= -1) opcode
  end.
Proof.
  intros r. subst r. unfold my_slider_take_action, opcode. cbn [foldl].
  unfold my_slider_try. cbn [reward_best greedy_op_best written].
  repeat (match goal with
          | |- context [?x >? ?y] => destruct (Z.gtb_spec x y)
          end; cbn [reward_best greedy_op_best written] in *);
    (split; [reflexivity|]);
    match goal with
    | |- context [decide (?d ≠ -1)] => destruct (decide (d ≠ -1)) as [Hd|Hd]
    end; try (exfalso; lia); try (exfalso; apply Hd; lia);
    cbn [fst]; rewrite ?Forall_cons, ?elem_of_cons; cbn beta;
    repeat split; try apply Forall_nil_2; try lia; tauto.
Qed.

End MySliderFacts.

Section RandomSliderFacts.

Context {B : Type} `{Board B}.

Variable engine : Type.
Variable shuffle : engine -> list Z -> list Z * engine.

(** [std::shuffle] rearranges the range: its result is a permutation. *)
Hypothesis shuffle_permutes : forall e l, (shuffle e l).1 ≡ₚ l.

Lemma first_legal_spec (before : B) (ops : list Z) :
  match first_legal before ops with
  | action_slide d => d ∈ ops /\ legal before d = true
  | action_null => forall op, op ∈ ops -> legal before op = false
  end.
Proof.
  induction ops as [|op rest IH]; simpl.
  - intros op Hop. apply elem_of_nil in Hop. contradiction.
  - destruct (negb ((slide before op).1 =? -1)) eqn:Hl.
    + split; [left|exact Hl].
    + destruct (first_legal before rest) as [d|].
      * destruct IH as [Hd Hlegal]. split; [right; exact Hd|exact Hlegal].
      * intros op' Hop'. apply elem_of_cons in Hop' as [->|Hop']; [exact Hl|].
        apply IH. exact Hop'.
Qed.

(** [random_slider] returns the slide in a legal direction whenever one of
    the four directions is legal, and the null action exactly when none
    is; its [opcode] remains a permutation of 0, 1, 2, 3 from call to
    call. *)
Theorem random_slider_returns_legal (a : random_slider engine) (before : B) :
  rs_opcode a ≡ₚ opcode ->
  rs_opcode (random_slider_take_action engine shuffle a before).2 ≡ₚ opcode /\
  match (random_slider_take_action engine shuffle a before).1 with
  | action_slide d => d ∈ opcode /\ legal before d = true
  | action_null => forall op, op ∈ opcode -> legal before op = false
  end.
Proof.
  intros Hperm. unfold random_slider_take_action.
  pose proof (shuffle_permutes (rs_engine a) (rs_opcode a)) as Hsh.
  destruct (shuffle (rs_engine a) (rs_opcode a)) as [ops e]. simpl in *.
  assert (Hops : ops ≡ₚ opcode) by (rewrite Hsh; exact Hperm).
  split; [exact Hops|].
  pose proof (first_legal_spec before ops) as Hfirst.
  destruct (first_legal before ops) as [d|].
  - destruct Hfirst as [Hd Hl]. split; [rewrite <- Hops; exact Hd|exact Hl].
  - intros op Hop. apply Hfirst. rewrite Hops. exact Hop.
Qed.

End RandomSliderFacts.

Lemma rotate_shuffle_permutes (e : nat) (l : list Z) : (rotate_shuffle e l).1 ≡ₚ l.
Proof.
  unfold rotate_shuffle. simpl. destruct l as [|x rest]; [reflexivity|].
  rewrite Permutation_app_comm. reflexivity.
Qed.

Lemma random_slider_returns_legal_witness :
  random_slider_take_action nat rotate_shuffle (RandomSlider opcode 0%nat) board_one
  = (action_slide 1, RandomSlider [1; 2; 3; 0] 1%nat) /\
  legal board_one 1 = true.
Proof.
  split; [reflexivity|].
  destruct (random_slider_returns_legal nat rotate_shuffle rotate_shuffle_permutes
              (RandomSlider opcode 0%nat) board_one) as [_ Hact].
  - reflexivity.
  - exact (proj2 Hact).
Defined.

(** * The random placer *)

Lemma pop_back_Some (l r : list Z) (x : Z) :
  pop_back l = Some (x, r) <-> l = r ++ [x].
Proof.
  unfold pop_back. split.
  - destruct (reverse l) as [|y r'] eqn:Hrev; [discriminate|].
    intros Hpop. injection Hpop as <- <-.
    rewrite <- (reverse_involutive l), Hrev, reverse_cons. reflexivity.
  - intros ->. rewrite reverse_snoc, reverse_involutive. reflexivity.
Qed.

Lemma pop_back_None (l : list Z) : pop_back l = None <-> l = [].
Proof.
  unfold pop_back. split.
  - destruct (reverse l) as [|y r'] eqn:Hrev; [|discriminate].
    intros _. rewrite <- (reverse_involutive l), Hrev. reflexivity.
  - intros ->. reflexivity.
Qed.

Lemma pop_back_is_Some (l : list Z) :
  (0 < length l)%nat -> exists x r, pop_back l = Some (x, r) /\ l = r ++ [x].
Proof.
  intros Hlen. destruct (pop_back l) as [[x r]|] eqn:Hpop.
  - exists x, r. split; [reflexivity|]. apply pop_back_Some. exact Hpop.
  - apply pop_back_None in Hpop. subst l. simpl in Hlen. lia.
Qed.

Lemma spaces_on_board (i : Z) (space : list Z) :
  vec_at spaces i = Some space -> Forall (fun pos => 0 <= pos <= 15) space.
Proof.
  intros Hi. apply vec_at_Some in Hi as [Hpos Hi].
  destruct (Z.to_nat i) as [|[|[|[|[|n]]]]]; simpl in Hi; try discriminate;
    injection Hi as <-; repeat apply Forall_cons_2; try apply Forall_nil_2; lia.
Qed.

Section RandomPlacerFacts.

Context {B : Type} `{PlacerBoard B}.

Variable engine : Type.
Variable shuffle : engine -> list Z -> list Z * engine.

Hypothesis shuffle_permutes : forall e l, (shuffle e l).1 ≡ₚ l.

(** The loop stops at the first empty position of the shuffled space. *)
Lemma place_first_spec (after : B) (e : engine) (space : list Z) :
  (Forall (fun pos => tile_at after pos <> 0) space ->
   place_first engine shuffle after e space = Some (placement_null, e)) /\
  (Exists (fun pos => tile_at after pos = 0) space ->
   exists pos, pos ∈ space /\ tile_at after pos = 0 /\
               place_first engine shuffle after e space = draw_tiles engine shuffle after e pos).
Proof.
  induction space as [|p rest [IHfull IHfree]]; simpl.
  - split; [reflexivity|]. intros Hex. apply Exists_nil in Hex. contradiction.
  - split.
    + intros Hall. apply Forall_cons in Hall as [Hp Hrest].
      rewrite decide_True by exact Hp. apply IHfull. exact Hrest.
    + intros Hex. destruct (decide (tile_at after p ≠ 0)) as [Hp|Hp].
      * apply Exists_cons in Hex as [Hfree|Hex]; [contradiction|].
        destruct (IHfree Hex) as (pos & Hin & Hfree & Hrun).
        exists pos. split; [right; exact Hin|]. split; [exact Hfree|exact Hrun].
      * exists p. split; [left|]. split; [|reflexivity].
        destruct (decide (tile_at after p = 0)); [assumption|contradiction].
Qed.

(** Drawing from the bag: the new hint, and the tile when none was
    announced, are the last elements of the shuffled bag. *)
Lemma draw_tiles_spec (after : B) (e : engine) (pos : Z) :
  let needed := if decide (hint after ≠ 0) then 1%nat else 2%nat in
  if decide (needed <= length (bag_tiles after) <= 3)%nat
  then exists tile h e' r,
         draw_tiles engine shuffle after e pos = Some (action_place pos tile h, e') /\
         if decide (hint after ≠ 0)
         then tile = hint after /\ bag_tiles after ≡ₚ r ++ [h]
         else bag_tiles after ≡ₚ r ++ [h; tile]
  else draw_tiles engine shuffle after e pos = None.
Proof.
  intros needed. unfold draw_tiles, fill_bag.
  destruct (decide (needed <= length (bag_tiles after) <= 3)%nat) as [[Hlow Hhigh]|Hout].
  - rewrite decide_True by exact Hhigh. simpl.
    pose proof (shuffle_permutes e (bag_tiles after)) as Hsh.
    destruct (shuffle e (bag_tiles after)) as [l e']. simpl in Hsh.
    assert (Hlen : length l = length (bag_tiles after)) by (rewrite Hsh; reflexivity).
    subst needed. destruct (decide (hint after ≠ 0)) as [Hhint|Hhint]; simpl.
    + destruct (pop_back_is_Some l) as (h & r & -> & Hl); [lia|]. simpl.
      exists (hint after), h, e', r. split; [reflexivity|].
      split; [reflexivity|]. rewrite <- Hsh, Hl. reflexivity.
    + destruct (pop_back_is_Some l) as (tile & l1 & -> & Hl); [lia|]. simpl.
      assert (Hlen1 : (0 < length l1)%nat)
        by (rewrite Hl, length_app in Hlen; simpl in Hlen; lia).
      destruct (pop_back_is_Some l1 Hlen1) as (h & r & -> & Hl1). simpl.
      exists tile, h, e', r. split; [reflexivity|].
      rewrite <- Hsh, Hl, Hl1, <- app_assoc. reflexivity.
  - destruct (decide (length (bag_tiles after) <= 3)%nat) as [Hhigh|Hhigh]; [|reflexivity].
    simpl.
    pose proof (shuffle_permutes e (bag_tiles after)) as Hsh.
    destruct (shuffle e (bag_tiles after)) as [l e']. simpl in Hsh.
    assert (Hlen : length l = length (bag_tiles after)) by (rewrite Hsh; reflexivity).
    subst needed. destruct (decide (hint after ≠ 0)) as [Hhint|Hhint]; simpl.
    + assert (Hnil : l = []) by (destruct l; [reflexivity|simpl in Hlen; lia]).
      subst l. reflexivity.
    + destruct (pop_back l) as [[tile l1]|] eqn:Hpop; [|reflexivity]. simpl.
      apply pop_back_Some in Hpop. rewrite Hpop, length_app in Hlen. simpl in Hlen.
      assert (Hnil : l1 = []) by (destruct l1; [reflexivity|simpl in Hlen; lia]).
      subst l1. reflexivity.
Qed.

(** [random_placer] returns the null action when every position of the
    side opposite to the last slide is occupied.  Otherwise it places on an
    empty position of that side, which lies on the board.  The announced
    tile is placed if there is one; the new hint, and the tile if none was
    announced, are drawn from the bag without replacement.  The bag array
    has room for three tiles and the draws are made without a check: with
    more than three tiles in the bag, or fewer than are drawn, the call is
    out of bounds. *)
Theorem random_placer_places_on_empty (e : engine) (after : B) :
  0 <= last_slide after < 5 ->
  exists space,
    vec_at spaces (last_slide after) = Some space /\
    Forall (fun pos => 0 <= pos <= 15) space /\
    (Forall (fun pos => tile_at after pos <> 0) space ->
     exists e', random_placer_take_action engine shuffle e after = Some (placement_null, e')) /\
    (Exists (fun pos => tile_at after pos = 0) space ->
     let needed := if decide (hint after ≠ 0) then 1%nat else 2%nat in
     if decide (needed <= length (bag_tiles after) <= 3)%nat
     then exists pos tile h e' r,
            random_placer_take_action engine shuffle e after
            = Some (action_place pos tile h, e') /\
            pos ∈ space /\ tile_at after pos = 0 /\
            if decide (hint after ≠ 0)
            then tile = hint after /\ bag_tiles after ≡ₚ r ++ [h]
            else bag_tiles after ≡ₚ r ++ [h; tile]
     else random_placer_take_action engine shuffle e after = None).
Proof.
  intros Hlast.
  destruct (vec_at_is_Some spaces (last_slide after)) as [space Hspace]; [simpl; lia|].
  exists space. split; [exact Hspace|]. split; [eapply spaces_on_board; exact Hspace|].
  unfold random_placer_take_action. rewrite Hspace. simpl.
  pose proof (shuffle_permutes e space) as Hsh.
  destruct (shuffle e space) as [shuffled e1]. simpl in Hsh.
  destruct (place_first_spec after e1 shuffled) as [Hfull Hfree].
  split.
  - intros Hall. exists e1. apply Hfull.
    rewrite Forall_forall in *. intros pos Hpos. apply Hall. rewrite <- Hsh. exact Hpos.
  - intros Hex.
    assert (Hex' : Exists (fun pos => tile_at after pos = 0) shuffled).
    { rewrite Exists_exists in *. destruct Hex as (pos & Hpos & Hfree0).
      exists pos. split; [rewrite Hsh; exact Hpos|exact Hfree0]. }
    destruct (Hfree Hex') as (pos & Hpos & Hfree0 & ->).
    pose proof (draw_tiles_spec after e1 pos) as Hdraw. cbv zeta in Hdraw.
    destruct (decide (_ <= length (bag_tiles after) <= 3)%nat); [|exact Hdraw].
    destruct Hdraw as (tile & h & e' & r & Hrun & Hbag).
    exists pos, tile, h, e', r. split; [exact Hrun|].
    split; [rewrite <- Hsh; exact Hpos|]. split; [exact Hfree0|exact Hbag].
Qed.

End RandomPlacerFacts.

Lemma random_placer_places_on_empty_witness :
  random_placer_take_action nat rotate_shuffle 0%nat placer_example
  = Some (action_place 4 2 3, 2%nat) /\
  exists space,
    vec_at spaces (last_slide placer_example) = Some space /\
    Forall (fun pos => 0 <= pos <= 15) space.
Proof.
  split; [reflexivity|].
  destruct (random_placer_places_on_empty nat rotate_shuffle rotate_shuffle_permutes
              0%nat placer_example) as (space & Hspace & Hboard & _).
  - simpl. lia.
  - exists space. split; [exact Hspace|exact Hboard].
Defined.
